(** * marmot-narrow-to-region: narrow / widen with indentation handling

    A shallow embedding of the two variants of the extension
    ([src/unnamed/part_000]: manual widen; [src/src/extension.ts]: debounced
    automatic sync) and of the properties stated about them.

    JavaScript strings are sequences of UTF-16 code units; a code unit is
    modelled as an [N] and a string as a [list N], so that [length] is the
    JavaScript [.length] and indexing is by code unit. *)

From Stdlib Require Import NArith String Ascii.
From stdpp Require Import base list gmap.

Local Open Scope N_scope.

Abbreviation jsstring := (list N).

(** ** String literals

    [js] reads an ASCII literal the way a JavaScript string literal is read:
    a backslash (code 92) followed by n, r or t stands for the line feed,
    the carriage return or the tab. *)

Definition LF : N := 10.
Definition CR : N := 13.
Definition TAB : N := 9.

Fixpoint js (s : string) : jsstring :=
  match s with
  | EmptyString => []
  | String c s' =>
      if N_of_ascii c =? 92 then
        match s' with
        | String d s'' =>
            if Ascii.eqb d "n"%char then LF :: js s''
            else if Ascii.eqb d "r"%char then CR :: js s''
            else if Ascii.eqb d "t"%char then TAB :: js s''
            else N_of_ascii c :: js s'
        | EmptyString => [N_of_ascii c]
        end
      else N_of_ascii c :: js s'
  end.

Arguments js : simpl never.

(** ** JavaScript string primitives used by the extension *)

(** [WhiteSpace] and [LineTerminator] code points of ECMAScript: the set that
    [String.prototype.trim] strips and that the regular expression class
    [\s] matches. *)
Definition isWhiteSpace (c : N) : bool :=
  (c =? 9) || (c =? 10) || (c =? 11) || (c =? 12) || (c =? 13) || (c =? 32)
  || (c =? 160) || (c =? 5760) || ((8192 <=? c) && (c <=? 8202))
  || (c =? 8232) || (c =? 8233) || (c =? 8239) || (c =? 8287)
  || (c =? 12288) || (c =? 65279).

Fixpoint takeWhile (p : N -> bool) (s : jsstring) : jsstring :=
  match s with
  | [] => []
  | c :: s' => if p c then c :: takeWhile p s' else []
  end.

Fixpoint dropWhile (p : N -> bool) (s : jsstring) : jsstring :=
  match s with
  | [] => []
  | c :: s' => if p c then dropWhile p s' else s
  end.

(** [s.trim()] *)
Definition trim (s : jsstring) : jsstring :=
  rev (dropWhile isWhiteSpace (rev (dropWhile isWhiteSpace s))).

(** [s.startsWith(p)] *)
Fixpoint startsWith (s p : jsstring) {struct p} : bool :=
  match p, s with
  | [], _ => true
  | a :: p', b :: s' => (a =? b) && startsWith s' p'
  | _ :: _, [] => false
  end.

(** [s.substring(n)] and [s.substring(0, n)] for [n] a length. *)
Definition substringFrom (s : jsstring) (n : nat) : jsstring := drop n s.
Definition substringTo (s : jsstring) (n : nat) : jsstring := take n s.

(** [!s] on a string: the empty string is the only falsy one. *)
Definition falsy (s : jsstring) : bool :=
  match s with [] => true | _ => false end.

Definition startsWithLF (s : jsstring) : bool :=
  match s with c :: _ => c =? LF | [] => false end.

Definition consFirst (c : N) (ls : list jsstring) : list jsstring :=
  match ls with
  | l :: ls' => (c :: l) :: ls'
  | [] => [[c]]
  end.

(** [text.split(/\r?\n/)]: the scan goes left to right; at each position a
    separator is either a line feed, or a carriage return immediately
    followed by a line feed; any other code unit (a lone carriage return
    included) belongs to the current line.  The result always has at least
    one element. *)
Fixpoint splitLines (text : jsstring) : list jsstring :=
  match text with
  | [] => [[]]
  | c :: text' =>
      if c =? LF then [] :: splitLines text'
      else if (c =? CR) && startsWithLF text' then splitLines text'
      else consFirst c (splitLines text')
  end.

(** [lines.join('\n')] *)
Fixpoint joinLF (lines : list jsstring) : jsstring :=
  match lines with
  | [] => []
  | [l] => l
  | l :: ls => l ++ LF :: joinLF ls
  end.

(** [arr.reduce(f)] without an initial value: the first element seeds the
    accumulator; on an empty array JavaScript throws a TypeError ([None]). *)
Definition reduce {A : Type} (f : A -> A -> A) (l : list A) : option A :=
  match l with
  | [] => None
  | x :: l' => Some (fold_left f l' x)
  end.

(** ** The indentation transform (identical text in both source files) *)

(** The predicate of the filter: [line.trim().length > 0]. *)
Definition nonBlank (line : jsstring) : bool :=
  (0 <? length (trim line))%nat.

(** [line.match(/^\s*/)![0]]: the leading whitespace run. *)
Definition leadingWhitespace (line : jsstring) : jsstring :=
  takeWhile isWhiteSpace line.

(** The loop of the reducer: the final value of [i] in
    [while (i < common.length && i < current.length
            && common[i] === current[i]) i++]. *)
Fixpoint matchLength (common current : jsstring) : nat :=
  match common, current with
  | a :: common', b :: current' =>
      if a =? b then S (matchLength common' current') else O
  | _, _ => O
  end.

Definition reducer (common current : jsstring) : jsstring :=
  substringTo common (matchLength common current).

Definition getCommonIndent (text : jsstring) : jsstring :=
  let lines := List.filter nonBlank (splitLines text) in
  if (length lines =? 0)%nat then []
  else
    let indents := map leadingWhitespace lines in
    match reduce reducer indents with
    | Some common => common
    | None => []
    end.

Definition removeIndentLine (indent line : jsstring) : jsstring :=
  if startsWith line indent then substringFrom line (length indent) else line.

Definition removeIndent (text indent : jsstring) : jsstring :=
  if falsy indent then text
  else joinLF (map (removeIndentLine indent) (splitLines text)).

Definition addIndentLine (indent line : jsstring) : jsstring :=
  if (0 <? length line)%nat then indent ++ line else line.

Definition addIndent (text indent : jsstring) : jsstring :=
  if falsy indent then text
  else joinLF (map (addIndentLine indent) (splitLines text)).

(** ** Positions, ranges and selections of the editor API *)

Record Position := mkPosition { line : nat; character : nat }.

Definition isBefore (a b : Position) : bool :=
  ((line a <? line b) || ((line a =? line b) && (character a <? character b)))%nat.

Record Range := mkRange { start : Position; end_ : Position }.

(** [new vscode.Range(a, b)] orders its two positions. *)
Definition newRange (a b : Position) : Range :=
  if isBefore b a then mkRange b a else mkRange a b.

Record Selection := mkSelection { anchor : Position; active : Position }.

Definition selStart (s : Selection) : Position :=
  if isBefore (active s) (anchor s) then active s else anchor s.
Definition selEnd (s : Selection) : Position :=
  if isBefore (active s) (anchor s) then anchor s else active s.
Definition isEmpty (s : Selection) : bool :=
  ((line (anchor s) =? line (active s)) && (character (anchor s) =? character (active s)))%nat.

Record Uri := mkUri { fsPath : jsstring }.

(** [vscode.Uri.file(path)] *)
Definition Uri_file (path : jsstring) : Uri := mkUri path.

Record TextDocument := mkTextDocument {
  uri : Uri;
  fileName : jsstring;
  languageId : jsstring;
  text : jsstring
}.

Record TextEditor := mkTextEditor {
  document : TextDocument;
  selection : Selection
}.

#[global] Instance Position_eq_dec : EqDecision Position.
Proof. solve_decision. Defined.
#[global] Instance Range_eq_dec : EqDecision Range.
Proof. solve_decision. Defined.
#[global] Instance Uri_eq_dec : EqDecision Uri.
Proof. solve_decision. Defined.

(** ** The host: library functions and the editor's state

    Functions of Node's [path] module and of the editor that the extension
    calls but does not define are an interface. *)

Class Host := {
  path_basename : jsstring -> jsstring;
  path_dirname : jsstring -> jsstring;
  path_extname : jsstring -> jsstring;
  path_join : jsstring -> jsstring -> jsstring;
  toLowerCase : jsstring -> jsstring;
  (* [document.getText(range)] on a document holding the given text *)
  textInRange : jsstring -> Range -> jsstring;
  (* the language mode the editor gives a file it opens *)
  languageOf : jsstring -> jsstring
}.

(** Messages shown to the user; the constructors name the literals of the
    source. *)
Inductive Message :=
  | MsgAlreadyNarrowed            (* warning of part_000, line 36 *)
  | MsgUnsupportedExtension       (* warning of part_000, line 47 *)
  | MsgEditing                    (* status bar, part_000, line 74 *)
  | MsgSynced                     (* information, part_000, line 119 *)
  | MsgNarrowMode (lang : jsstring) (* status bar, extension.ts, line 71 *).

(** Calls into the host, as they appear in its log. *)
Inductive HostCall :=
  | ShowWarningMessage (m : Message)
  | ShowInformationMessage (m : Message)
  | SetStatusBarMessage (m : Message) (ms : nat)
  | WriteFileSync (path content : jsstring)
  | ExistsSync (path : jsstring)
  | UnlinkSync (path : jsstring)
  | OpenTextDocument (u : Uri)
  | SetTextDocumentLanguage (doc : Uri) (lang : jsstring)
  | ShowTextDocument (doc : Uri)
  | ExecuteCommand (command : jsstring)
  | ApplyEdit (u : Uri) (r : Range) (newText : jsstring)
  | SetSelection (doc : Uri) (s : Selection)
  | RevealRange (doc : Uri) (r : Range)
  | SetTimeout (id : nat) (ms : nat)
  | ClearTimeout (id : nat).

(** A pending timer: its handle, the time at which it is due and the
    document of the change event its callback closes over. *)
Record Timer := mkTimer { timerId : nat; deadline : nat; timerDoc : jsstring }.

(** The state of the host as far as the handlers observe it.
    [throws] says which calls raise an exception (or return a rejected
    promise); [applyEditResult] is the boolean [applyEdit] resolves to.
    The window layout ([activeTextEditor], [visibleTextEditors]) is read by
    each handler before its first call that could change it; how the host
    changes it is not modelled, such calls are only logged. *)
Record World := mkWorld {
  activeTextEditor : option TextEditor;
  visibleTextEditors : list TextEditor;
  buffers : gmap (list N) (list N);
  files : gmap (list N) (list N);
  throws : HostCall -> bool;
  applyEditResult : Uri -> Range -> jsstring -> bool;
  log : list HostCall;
  now : nat;
  timers : list Timer;
  nextTimer : nat
}.

Definition withLog (w : World) (l : list HostCall) : World :=
  mkWorld (activeTextEditor w) (visibleTextEditors w) (buffers w) (files w)
    (throws w) (applyEditResult w) l (now w) (timers w) (nextTimer w).
Definition withBuffers (w : World) (b : gmap (list N) (list N)) : World :=
  mkWorld (activeTextEditor w) (visibleTextEditors w) b (files w)
    (throws w) (applyEditResult w) (log w) (now w) (timers w) (nextTimer w).
Definition withFiles (w : World) (f : gmap (list N) (list N)) : World :=
  mkWorld (activeTextEditor w) (visibleTextEditors w) (buffers w) f
    (throws w) (applyEditResult w) (log w) (now w) (timers w) (nextTimer w).
Definition withNow (w : World) (t : nat) : World :=
  mkWorld (activeTextEditor w) (visibleTextEditors w) (buffers w) (files w)
    (throws w) (applyEditResult w) (log w) t (timers w) (nextTimer w).
Definition withTimers (w : World) (ts : list Timer) (next : nat) : World :=
  mkWorld (activeTextEditor w) (visibleTextEditors w) (buffers w) (files w)
    (throws w) (applyEditResult w) (log w) (now w) ts next.

(** ** Handlers as state-and-exception computations

    A handler runs on the extension's variables [S] and the host's state.
    [None] as a result is an exception that leaves the handler (no handler
    of the source catches any); the state reached at that point stays.
    A handler is run to completion: other handlers running between its
    awaits are not modelled. *)

Definition M (S A : Type) : Type := S * World -> option A * (S * World).

#[global] Instance M_ret {S} : MRet (M S) := fun A a sw => (Some a, sw).
#[global] Instance M_bind {S} : MBind (M S) := fun A B f m sw =>
  match m sw with
  | (Some a, sw') => f a sw'
  | (None, sw') => (None, sw')
  end.

Definition throw {S A} : M S A := fun sw => (None, sw).
Definition getState {S} : M S S := fun sw => (Some (fst sw), sw).
Definition putState {S} (s : S) : M S unit := fun sw => (Some tt, (s, snd sw)).
Definition getWorld {S} : M S World := fun sw => (Some (snd sw), sw).
Definition putWorld {S} (w : World) : M S unit := fun sw => (Some tt, (fst sw, w)).

(** A call that cannot throw: it is logged. *)
Definition emit {S} (c : HostCall) : M S unit :=
  w ← getWorld; putWorld (withLog w (log w ++ [c])).

(** A call that may throw: it is logged, then the host decides. *)
Definition invoke {S} (c : HostCall) : M S unit :=
  w ← getWorld;
  putWorld (withLog w (log w ++ [c]));;
  if throws w c then throw else mret tt.

Definition when {S} (b : bool) (m : M S unit) : M S unit :=
  if b then m else mret tt.

Definition liftOption {S A} (o : option A) : M S A :=
  match o with
  | Some a => mret a
  | None => throw
  end.

(** The text the editor has for a path: the open buffer, else the file. *)
Definition contentOf (w : World) (path : jsstring) : option jsstring :=
  match buffers w !! path with
  | Some t => Some t
  | None => files w !! path
  end.

Section HostOperations.
Context `{Host} {S : Type}.

(** [document.getText(range?)] *)
Definition getText (doc : TextDocument) (r : option Range) : jsstring :=
  match r with
  | None => text doc
  | Some r => textInRange (text doc) r
  end.

(** [fs.writeFileSync(path, content)] *)
Definition writeFileSync (path content : jsstring) : M S unit :=
  invoke (WriteFileSync path content);;
  w ← getWorld; putWorld (withFiles w (<[path := content]> (files w))).

(** [fs.existsSync(path)] never throws. *)
Definition existsSync (path : jsstring) : M S bool :=
  emit (ExistsSync path);;
  w ← getWorld; mret (bool_decide (is_Some (files w !! path))).

(** [fs.unlinkSync(path)] throws when the host refuses the deletion, or
    when there is no such file. *)
Definition unlinkSync (path : jsstring) : M S unit :=
  invoke (UnlinkSync path);;
  w ← getWorld;
  match files w !! path with
  | Some _ => putWorld (withFiles w (delete path (files w)))
  | None => throw
  end.

(** [await vscode.workspace.openTextDocument(uri)]: the document holds
    the open buffer of that path if there is one, otherwise the content
    of the file; the promise is rejected when there is neither. *)
Definition openTextDocument (u : Uri) : M S TextDocument :=
  invoke (OpenTextDocument u);;
  w ← getWorld;
  t ← liftOption (contentOf w (fsPath u));
  mret (mkTextDocument u (fsPath u) (languageOf (fsPath u)) t).

(** [await vscode.window.showTextDocument(doc, ...)] and
    [await vscode.commands.executeCommand(command)]: the request is
    recorded and may be rejected.  What the workbench then does to its
    windows and to the buffer of the editor in front (the commands used
    here close it, one of them after reverting it) is the host's and is not
    part of the model: properties of these calls are about the requests
    made, never about the buffers after them. *)
Definition showTextDocument (doc : TextDocument) : M S unit :=
  invoke (ShowTextDocument (uri doc)).

Definition executeCommand (command : jsstring) : M S unit :=
  invoke (ExecuteCommand command).

Definition setTextDocumentLanguage (doc : TextDocument) (lang : jsstring) : M S unit :=
  invoke (SetTextDocumentLanguage (uri doc) lang).

(** [await vscode.workspace.applyEdit(edit)] for an edit holding one
    [replace].  The change notification the host sends for the edited
    document is not dispatched: the listener of the extension returns at
    once for every document other than the temporary file. *)
Definition applyEdit (u : Uri) (r : Range) (newText : jsstring) : M S bool :=
  invoke (ApplyEdit u r newText);;
  w ← getWorld; mret (applyEditResult w u r newText).

(** [setTimeout(callback, ms)] where the callback closes over the change
    event of document [doc]. *)
Definition setTimeout (doc : jsstring) (ms : nat) : M S nat :=
  w ← getWorld;
  let id := nextTimer w in
  putWorld (withTimers w (timers w ++ [mkTimer id (now w + ms) doc]) (Datatypes.S id));;
  emit (SetTimeout id ms);;
  mret id.

(** [clearTimeout(id)] *)
Definition clearTimeout (id : nat) : M S unit :=
  w ← getWorld;
  putWorld (withTimers w (List.filter (fun t => negb (timerId t =? id)%nat) (timers w)) (nextTimer w));;
  emit (ClearTimeout id).
End HostOperations.

(** Truthiness of the closure variables: a string is truthy when it is not
    empty, an object (Uri, Range, timer handle) whenever it is defined. *)
Definition truthyString (s : option jsstring) : bool :=
  match s with
  | Some (_ :: _) => true
  | _ => false
  end.

Definition defined {A} (o : option A) : bool :=
  match o with Some _ => true | None => false end.

(** The state a computation leaves, whether it returned or threw. *)
Definition exec {S A} (m : M S A) (sw : S * World) : S * World := snd (m sw).

Definition findEditor (path : jsstring) (eds : list TextEditor) : option TextEditor :=
  List.find (fun ed => bool_decide (fsPath (uri (document ed)) = path)) eds.

Definition cmdCloseActiveEditor : jsstring := js "workbench.action.closeActiveEditor".
Definition cmdRevertAndCloseActiveEditor : jsstring :=
  js "workbench.action.revertAndCloseActiveEditor".

(** ** Variant with manual widen ([src/unnamed/part_000]) *)

Module Manual.

Record State := mkState {
  activeOriginalUri : option Uri;
  activeRange : option Range;
  tempFilePath : option jsstring;
  baseIndent : jsstring
}.

(** Lines 104-108: the end of the selection after the write-back. An index
    outside [lines] would be a TypeError ([None]). *)
Definition newEndPos (rangeStart : Position) (textToRestore : jsstring) : option Position :=
  let lines := splitLines textToRestore in
  c ← (if (length lines =? 1)%nat
       then (fun l => character rangeStart + length l)%nat <$> lines !! O
       else length <$> lines !! (length lines - 1)%nat);
  Some (mkPosition (line rangeStart + length lines - 1)%nat c).

Section Handlers.
Context `{Host}.

(** The narrow command (lines 34-75).  The four variables are assigned
    before the first call that can throw. *)
Definition narrowCommand : M State unit :=
  st ← getState;
  if truthyString (tempFilePath st) then
    emit (ShowWarningMessage MsgAlreadyNarrowed)
  else
    w ← getWorld;
    match activeTextEditor w with
    | None => mret tt
    | Some editor =>
        if isEmpty (selection editor) then mret tt
        else
          let originalDoc := document editor in
          let ext := toLowerCase (path_extname (fileName originalDoc)) in
          if negb (existsb (fun x => bool_decide (x = ext)) [js ".js"; js ".html"]) then
            emit (ShowWarningMessage MsgUnsupportedExtension)
          else
            let range := newRange (selStart (selection editor)) (selEnd (selection editor)) in
            let originalText := getText originalDoc (Some range) in
            let indent := getCommonIndent originalText in
            let cleanText := removeIndent originalText indent in
            let fileName' := path_basename (fileName originalDoc) in
            let tmp := path_join (path_dirname (fileName originalDoc)) (js ".narrow." ++ fileName') in
            putState (mkState (Some (uri originalDoc)) (Some range) (Some tmp) indent);;
            writeFileSync tmp cleanText;;
            doc ← openTextDocument (Uri_file tmp);
            showTextDocument originalDoc;;
            executeCommand cmdCloseActiveEditor;;
            showTextDocument doc;;
            emit (SetStatusBarMessage MsgEditing 5000)
    end.

(** The widen command (lines 78-121).  The boolean [applyEdit] resolves
    to is not bound. *)
Definition widenCommand : M State unit :=
  st ← getState;
  match tempFilePath st, activeOriginalUri st, activeRange st with
  | Some tmp, Some original, Some range =>
      if truthyString (Some tmp) then
        let tempUri := Uri_file tmp in
        tempDoc ← openTextDocument tempUri;
        let editedText := getText tempDoc None in
        let textToRestore := addIndent editedText (baseIndent st) in
        _ ← applyEdit original range textToRestore;
        w ← getWorld;
        match findEditor (fsPath tempUri) (visibleTextEditors w) with
        | Some tempEditor =>
            showTextDocument (document tempEditor);;
            executeCommand cmdRevertAndCloseActiveEditor
        | None => mret tt
        end;;
        originalDoc ← openTextDocument original;
        showTextDocument originalDoc;;
        pos ← liftOption (newEndPos (start range) textToRestore);
        let range' := newRange (start range) pos in
        emit (SetSelection (uri originalDoc) (mkSelection (start range') (end_ range')));;
        emit (RevealRange (uri originalDoc) range');;
        b ← existsSync tmp;
        when b (unlinkSync tmp);;
        putState (mkState None None None (baseIndent st));;
        emit (ShowInformationMessage MsgSynced)
      else mret tt
  | _, _, _ => mret tt
  end.
End Handlers.

(** A session is active when the guard of [widenCommand] passes. *)
Definition narrowed (st : State) : bool :=
  truthyString (tempFilePath st) && defined (activeOriginalUri st) && defined (activeRange st).

Definition idle (st : State) : Prop :=
  tempFilePath st = None /\ activeOriginalUri st = None /\ activeRange st = None.

End Manual.

(** ** Variant with automatic, debounced sync ([src/src/extension.ts]) *)

Module AutoSync.

Record State := mkState {
  activeOriginalUri : option Uri;
  activeRange : option Range;
  tempFilePath : option jsstring;
  baseIndent : jsstring;
  originalLanguageId : jsstring;
  isSyncing : bool;
  syncTimer : option nat
}.

Definition withSession (st : State) (u : option Uri) (r : option Range)
    (tmp : option jsstring) : State :=
  mkState u r tmp (baseIndent st) (originalLanguageId st) (isSyncing st) (syncTimer st).
Definition withRange (st : State) (r : option Range) : State :=
  mkState (activeOriginalUri st) r (tempFilePath st) (baseIndent st)
    (originalLanguageId st) (isSyncing st) (syncTimer st).
Definition withIndent (st : State) (indent : jsstring) : State :=
  mkState (activeOriginalUri st) (activeRange st) (tempFilePath st) indent
    (originalLanguageId st) (isSyncing st) (syncTimer st).
Definition withLanguage (st : State) (lang : jsstring) : State :=
  mkState (activeOriginalUri st) (activeRange st) (tempFilePath st) (baseIndent st)
    lang (isSyncing st) (syncTimer st).
Definition withSyncing (st : State) (b : bool) : State :=
  mkState (activeOriginalUri st) (activeRange st) (tempFilePath st) (baseIndent st)
    (originalLanguageId st) b (syncTimer st).
Definition withTimer (st : State) (t : option nat) : State :=
  mkState (activeOriginalUri st) (activeRange st) (tempFilePath st) (baseIndent st)
    (originalLanguageId st) (isSyncing st) t.

Definition modify (f : State -> State) : M State unit :=
  st ← getState; putState (f st).

(** Lines 115-120: the end of the tracked range after a write-back. *)
Definition newEndPos (rangeStart : Position) (textToRestore : jsstring) : option Position :=
  let lines := splitLines textToRestore in
  let lastLineIndex := (length lines - 1)%nat in
  lastLine ← lines !! lastLineIndex;
  Some (mkPosition (line rangeStart + lastLineIndex)%nat
          (if (lastLineIndex =? 0)%nat
           then (character rangeStart + length lastLine)%nat
           else length lastLine)).

Section Handlers.
Context `{Host}.

(** The narrow command (lines 37-72): no test of [tempFilePath]. *)
Definition narrowCommand : M State unit :=
  w ← getWorld;
  match activeTextEditor w with
  | None => mret tt
  | Some editor =>
      if isEmpty (selection editor) then mret tt
      else
        let originalDoc := document editor in
        let range := newRange (selStart (selection editor)) (selEnd (selection editor)) in
        modify (fun st => withSession st (Some (uri originalDoc)) (Some range) (tempFilePath st));;
        modify (fun st => withLanguage st (languageId originalDoc));;
        let originalText := getText originalDoc (Some range) in
        let indent := getCommonIndent originalText in
        modify (fun st => withIndent st indent);;
        let cleanText := removeIndent originalText indent in
        let fileName' := path_basename (fileName originalDoc) in
        let tmp := path_join (path_dirname (fileName originalDoc)) (js ".narrow." ++ fileName') in
        modify (fun st => withSession st (activeOriginalUri st) (activeRange st) (Some tmp));;
        writeFileSync tmp cleanText;;
        doc ← openTextDocument (Uri_file tmp);
        setTextDocumentLanguage doc (languageId originalDoc);;
        showTextDocument doc;;
        showTextDocument originalDoc;;
        executeCommand cmdCloseActiveEditor;;
        showTextDocument doc;;
        emit (SetStatusBarMessage (MsgNarrowMode (languageId originalDoc)) 3000)
  end.

(** The widen command (lines 75-99): cleanup only, no write-back. *)
Definition widenCommand : M State unit :=
  st ← getState;
  match tempFilePath st, activeOriginalUri st with
  | Some tmp, Some original =>
      if truthyString (Some tmp) then
        w ← getWorld;
        match findEditor (fsPath (Uri_file tmp)) (visibleTextEditors w) with
        | Some tempEditor =>
            showTextDocument (document tempEditor);;
            executeCommand cmdRevertAndCloseActiveEditor
        | None => mret tt
        end;;
        originalDoc ← openTextDocument original;
        showTextDocument originalDoc;;
        match activeRange st with
        | Some range =>
            emit (SetSelection (uri originalDoc) (mkSelection (start range) (end_ range)));;
            emit (RevealRange (uri originalDoc) range)
        | None => mret tt
        end;;
        b ← existsSync tmp;
        when b (unlinkSync tmp);;
        modify (fun st => withSession st None None None)
      else mret tt
  | _, _ => mret tt
  end.

(** The callback handed to [setTimeout] (lines 105-124); [doc] is the
    path of [e.document], whose text is read when the callback runs.
    With [activeOriginalUri] or [activeRange] undefined the non-null
    assertions hand [undefined] to the host: modelled as a throw. *)
Definition syncCallback (doc : jsstring) : M State unit :=
  modify (fun st => withSyncing st true);;
  w ← getWorld;
  editedText ← liftOption (buffers w !! doc);
  st ← getState;
  let textToRestore := addIndent editedText (baseIndent st) in
  match activeOriginalUri st, activeRange st with
  | Some original, Some range =>
      success ← applyEdit original range textToRestore;
      (if success : bool then
         newEnd ← liftOption (newEndPos (start range) textToRestore);
         modify (fun st => withRange st (Some (newRange (start range) newEnd)))
       else mret tt);;
      modify (fun st => withSyncing st false)
  | _, _ => throw
  end.

(** The listener of [onDidChangeTextDocument] (lines 102-126); [doc] is
    the path of the changed document. *)
Definition changeListener (doc : jsstring) : M State unit :=
  st ← getState;
  match tempFilePath st with
  | Some tmp =>
      if truthyString (Some tmp)
         && bool_decide (doc = fsPath (Uri_file tmp))
         && defined (activeOriginalUri st) && defined (activeRange st)
      then
        match syncTimer st with
        | Some t => clearTimeout t
        | None => mret tt
        end;;
        id ← setTimeout doc 300;
        modify (fun st => withTimer st (Some id))
      else mret tt
  | None => mret tt
  end.

(** *** The event loop *)

Inductive Event :=
  | UserEdit (doc newText : jsstring)  (* the buffer of [doc] now holds [newText] *)
  | Elapse (ms : nat)                  (* time passes; due timers fire *)
  | InvokeNarrow
  | InvokeWiden.

(** A timer is due once its deadline is reached; due timers fire in the
    order they were set, each running the callback to its end. *)
Definition isDue (t : nat) (tm : Timer) : bool := (deadline tm <=? t)%nat.

Fixpoint fire (due : list Timer) (sw : State * World) : State * World :=
  match due with
  | [] => sw
  | tm :: due' => fire due' (exec (syncCallback (timerDoc tm)) sw)
  end.

Definition step (sw : State * World) (e : Event) : State * World :=
  match e with
  | UserEdit doc newText =>
      let w := snd sw in
      exec (changeListener doc) (fst sw, withBuffers w (<[doc := newText]> (buffers w)))
  | Elapse ms =>
      let w := snd sw in
      let t := (now w + ms)%nat in
      let due := List.filter (isDue t) (timers w) in
      let rest := List.filter (fun tm => negb (isDue t tm)) (timers w) in
      fire due (fst sw, withTimers (withNow w t) rest (nextTimer w))
  | InvokeNarrow => exec narrowCommand sw
  | InvokeWiden => exec widenCommand sw
  end.

Definition runEvents (sw : State * World) (es : list Event) : State * World :=
  fold_left step es sw.
End Handlers.

(** A session is active when the guard of [changeListener] passes for the
    detached buffer. *)
Definition narrowed (st : State) : bool :=
  truthyString (tempFilePath st) && defined (activeOriginalUri st) && defined (activeRange st).

Definition idle (st : State) : Prop :=
  tempFilePath st = None /\ activeOriginalUri st = None /\ activeRange st = None.

End AutoSync.

(** ** Definitions that follow the specification's wording *)

(** Splitting on the line feed alone, as the specification words
    [remapRangeEnd]. *)
Fixpoint splitOnLF (text : jsstring) : list jsstring :=
  match text with
  | [] => [[]]
  | c :: text' =>
      if c =? LF then [] :: splitOnLF text' else consFirst c (splitOnLF text')
  end.

(** [remapRangeEnd] of the specification: a single line ends in the start
    line, at the start column plus its length; otherwise the end is in line
    [start.line + numberOfLines - 1], at the length of the last line. *)
Definition remapRangeEnd_spec (rangeStart : Position) (replacementText : jsstring) : Position :=
  let ls := splitOnLF replacementText in
  match ls with
  | [l] => mkPosition (line rangeStart) (character rangeStart + length l)
  | _ => mkPosition (line rangeStart + length ls - 1) (length (List.last ls []))
  end.

(** A blank line: empty or made of whitespace only. *)
Definition blankLine (l : jsstring) : Prop :=
  forall c, c ∈ l -> isWhiteSpace c = true.

(** The round trip of a selected text through narrow and widen. *)
Definition roundTrip (T : jsstring) : jsstring :=
  addIndent (removeIndent T (getCommonIndent T)) (getCommonIndent T).

(** The round trip as the specification words it: line by line, a
    non-blank line comes back unchanged and a blank line comes back
    empty. *)
Definition roundTripAsSpecified (T : jsstring) : Prop :=
  forall i l, splitLines T !! i = Some l ->
    splitLines (roundTrip T) !! i = Some (if nonBlank l then l else []).

(** What one line becomes in the round trip with indent [I]. *)
Definition roundTripLine (I l : jsstring) : jsstring :=
  addIndentLine I (removeIndentLine I l).

(** No line but the last ends in a carriage return (the text has no
    carriage return in front of a CR LF or LF separator). *)
Definition endsWithCR (l : jsstring) : bool := List.last l 0 =? CR.

Definition noCRBeforeBreak (T : jsstring) : bool :=
  forallb (fun l => negb (endsWithCR l)) (removelast (splitLines T)).

(** The lines of a text as the specification words them, for either line
    ending: the text is cut at every line feed, and a carriage return right
    in front of a line feed belongs to the line break, not to the line. *)
Definition stripCR (l : jsstring) : jsstring :=
  if endsWithCR l then removelast l else l.

Fixpoint stripCRs (pieces : list jsstring) : list jsstring :=
  match pieces with
  | [] => []
  | l :: pieces' =>
      match pieces' with
      | [] => [l]
      | _ :: _ => stripCR l :: stripCRs pieces'
      end
  end.

Definition linesOf (T : jsstring) : list jsstring := stripCRs (splitOnLF T).

(** [w] is the leading whitespace run of the line [l]: the line starts
    with [w], [w] is whitespace only, and what follows [w] in the line does
    not start with a whitespace code unit. *)
Definition leadingRun (w l : jsstring) : Prop :=
  exists rest, l = w ++ rest
    /\ (forall c, c ∈ w -> isWhiteSpace c = true)
    /\ (forall c rest', rest = c :: rest' -> isWhiteSpace c = false).

(** ** A plain host for the examples

    Absolute POSIX paths without dot segments or trailing slashes, ASCII
    case folding, texts whose lines are separated by line feeds. *)

Definition SLASH : N := 47.
Definition DOT : N := 46.

Definition notSlash (c : N) : bool := negb (c =? SLASH).

Definition posixBasename (p : jsstring) : jsstring :=
  rev (takeWhile notSlash (rev p)).

Definition posixDirname (p : jsstring) : jsstring :=
  match rev (drop 1 (dropWhile notSlash (rev p))) with
  | [] => if startsWith p [SLASH] then [SLASH] else [DOT]
  | d => d
  end.

Definition posixJoin (a b : jsstring) : jsstring :=
  if bool_decide (List.last a 0 = SLASH) then a ++ b else a ++ SLASH :: b.

Definition posixExtname (p : jsstring) : jsstring :=
  let b := posixBasename p in
  let stem := rev (drop 1 (dropWhile (fun c => negb (c =? DOT)) (rev b))) in
  match stem with
  | [] => []
  | _ => drop (length stem) b
  end.

Definition asciiLower (s : jsstring) : jsstring :=
  map (fun c => if (65 <=? c) && (c <=? 90) then c + 32 else c) s.

Fixpoint offsetAt (t : jsstring) (l c : nat) {struct t} : nat :=
  match l, t with
  | O, _ => Nat.min c (length (takeWhile (fun x => negb (x =? LF)) t))
  | Datatypes.S l', ch :: t' =>
      Datatypes.S (offsetAt t' (if ch =? LF then l' else l) c)
  | Datatypes.S _, [] => O
  end.

Definition sliceText (t : jsstring) (r : Range) : jsstring :=
  let a := offsetAt t (line (start r)) (character (start r)) in
  let b := offsetAt t (line (end_ r)) (character (end_ r)) in
  take (b - a) (drop a t).

Definition plainLanguage (p : jsstring) : jsstring :=
  let e := asciiLower (posixExtname p) in
  if bool_decide (e = js ".js") then js "javascript"
  else if bool_decide (e = js ".html") then js "html"
  else js "plaintext".

Definition plainHost : Host :=
  Build_Host posixBasename posixDirname posixExtname posixJoin asciiLower
    sliceText plainLanguage.

(** An editor state with nothing open, no faults and every edit accepted. *)
Definition quietWorld : World :=
  mkWorld None [] ∅ ∅ (fun _ => false) (fun _ _ _ => true) [] 0 [] 0.

Definition withEditors (w : World) (a : option TextEditor) (vis : list TextEditor) : World :=
  mkWorld a vis (buffers w) (files w) (throws w) (applyEditResult w)
    (log w) (now w) (timers w) (nextTimer w).

Definition withFaults (w : World) (th : HostCall -> bool)
    (ok : Uri -> Range -> jsstring -> bool) : World :=
  mkWorld (activeTextEditor w) (visibleTextEditors w) (buffers w) (files w) th ok
    (log w) (now w) (timers w) (nextTimer w).

(** The write-backs requested from the host, in order. *)
Definition writeBacks (l : list HostCall) : list (Uri * Range * jsstring) :=
  omap (fun c => match c with
                 | ApplyEdit u r t => Some (u, r, t)
                 | _ => None
                 end) l.

(** ** The scenario of the specification

    A source file of which two lines indented by four spaces are selected,
    the narrow window that results, and the edit the user makes there. *)

Definition srcPath : jsstring := js "/proj/a.js".
Definition tmpPath : jsstring := js "/proj/.narrow.a.js".
Definition srcText : jsstring := js "function f() {\n    foo();\n    bar();\n}".
Definition editedText : jsstring := js "foo();\nbaz();\nqux();".
Definition selectedRange : Range := mkRange (mkPosition 1 0) (mkPosition 2 10).

Definition srcEditor : TextEditor :=
  mkTextEditor (mkTextDocument (Uri_file srcPath) srcPath (js "javascript") srcText)
    (mkSelection (mkPosition 1 0) (mkPosition 2 10)).

(** The source file is in front, with the two lines selected. *)
Definition sourceWorld : World :=
  withFiles (withEditors quietWorld (Some srcEditor) [srcEditor]) {[ srcPath := srcText ]}.

(** The narrow window is in front, holding the edited text, with the six
    code units of its second line selected. *)
Definition tmpEditor : TextEditor :=
  mkTextEditor (mkTextDocument (Uri_file tmpPath) tmpPath (js "javascript") editedText)
    (mkSelection (mkPosition 1 0) (mkPosition 1 6)).

Definition narrowWindowWorld : World :=
  withBuffers
    (withFiles (withEditors quietWorld (Some tmpEditor) [tmpEditor])
       (<[ tmpPath := js "foo();\nbar();" ]> {[ srcPath := srcText ]}))
    {[ tmpPath := editedText ]}.

(** The same, on a host that refuses to delete files and rejects edits. *)
Definition unlinkRefused (c : HostCall) : bool :=
  match c with
  | UnlinkSync _ => true
  | _ => false
  end.

Definition lockedWorld : World :=
  withFaults narrowWindowWorld unlinkRefused (fun _ _ _ => false).

(** The narrow document sits in a background tab: the source file is in
    front and is the only visible editor, the buffer of the narrow document
    holds the edited text, and the host rejects edits.  No call throws. *)
Definition backgroundWorld : World :=
  withFaults (withEditors narrowWindowWorld (Some srcEditor) [srcEditor])
    (fun _ => false) (fun _ _ _ => false).

Definition idleAuto : AutoSync.State :=
  AutoSync.mkState None None None [] [] false None.

Definition narrowedAuto : AutoSync.State :=
  AutoSync.mkState (Some (Uri_file srcPath)) (Some selectedRange) (Some tmpPath)
    (js "    ") (js "javascript") false None.

Definition narrowedManual : Manual.State :=
  Manual.mkState (Some (Uri_file srcPath)) (Some selectedRange) (Some tmpPath) (js "    ").

(** Narrow, one edit of the detached buffer, and the quiet window. *)
Definition syncScenario : AutoSync.State * World :=
  AutoSync.runEvents (H := plainHost) (idleAuto, sourceWorld)
    [AutoSync.InvokeNarrow; AutoSync.UserEdit tmpPath editedText; AutoSync.Elapse 300].

(** The outcome of the scenario as the specification words it. *)
Definition syncScenarioAsSpecified : Prop :=
  writeBacks (log (snd syncScenario))
    = [(Uri_file srcPath, selectedRange, js "    foo();\n    baz();\n    qux();")]
  /\ AutoSync.activeRange (fst syncScenario)
    = Some (mkRange (start selectedRange)
              (mkPosition (line (start selectedRange) + 2) 9)).

(** A burst of edits of the detached buffer: a first edit, then further
    edits, each after the given number of milliseconds. *)
Definition burst (doc first : jsstring) (rest : list (nat * jsstring)) : list AutoSync.Event :=
  AutoSync.UserEdit doc first
    :: flat_map (fun gt => [AutoSync.Elapse (fst gt); AutoSync.UserEdit doc (snd gt)]) rest.

Definition lastEdit (first : jsstring) (rest : list (nat * jsstring)) : jsstring :=
  List.last (map snd rest) first.

(** After an edit of the detached buffer: the session is as it was, the
    buffer holds [t], and exactly one timer is pending, due one quiet
    window from now. *)
Definition pendingSync (tmp : jsstring) (original : Uri) (range : Range)
    (indent : jsstring) (t : jsstring) (sw : AutoSync.State * World) : Prop :=
  AutoSync.tempFilePath (fst sw) = Some tmp
  /\ AutoSync.activeOriginalUri (fst sw) = Some original
  /\ AutoSync.activeRange (fst sw) = Some range
  /\ AutoSync.baseIndent (fst sw) = indent
  /\ buffers (snd sw) !! tmp = Some t
  /\ exists id, AutoSync.syncTimer (fst sw) = Some id
       /\ timers (snd sw) = [mkTimer id (now (snd sw) + 300) tmp].

(** The host calls of a widen up to the test for the temporary file. *)
Definition closeNarrowWindow (w : World) (tmp : jsstring) : list HostCall :=
  match findEditor tmp (visibleTextEditors w) with
  | Some tempEditor =>
      [ShowTextDocument (uri (document tempEditor));
       ExecuteCommand cmdRevertAndCloseActiveEditor]
  | None => []
  end.

Definition manualWidenCalls (w : World) (tmp : jsstring) (original : Uri)
    (range : Range) (t : jsstring) : list HostCall :=
  [OpenTextDocument (Uri_file tmp); ApplyEdit original range t]
  ++ closeNarrowWindow w tmp
  ++ [OpenTextDocument original; ShowTextDocument original;
      SetSelection original
        (mkSelection (start range) (remapRangeEnd_spec (start range) t));
      RevealRange original (mkRange (start range) (remapRangeEnd_spec (start range) t));
      ExistsSync tmp].

Definition autoWidenCalls (w : World) (tmp : jsstring) (original : Uri)
    (range : option Range) : list HostCall :=
  closeNarrowWindow w tmp
  ++ [OpenTextDocument original; ShowTextDocument original]
  ++ match range with
     | Some r => [SetSelection original (mkSelection (start r) (end_ r));
                  RevealRange original r]
     | None => []
     end
  ++ [ExistsSync tmp].

(** ** Frames of handlers

    What a computation leaves alone: [preserves R m] says that the state
    [m] ends in, returned or thrown, is related by [R] to the one it
    started from.  [frame Q P] relates the extension's variables by [Q],
    keeps the timers and the buffers, and lets the log grow by calls that
    satisfy [P] only. *)

Definition preserves {S A : Type} (R : S * World -> S * World -> Prop) (m : M S A) : Prop :=
  forall sw, R sw (snd (m sw)).

Definition frame {S : Type} (Q : S -> S -> Prop) (P : HostCall -> Prop)
    (sw sw' : S * World) : Prop :=
  Q (fst sw) (fst sw')
  /\ timers (snd sw') = timers (snd sw)
  /\ nextTimer (snd sw') = nextTimer (snd sw)
  /\ buffers (snd sw') = buffers (snd sw)
  /\ exists l, log (snd sw') = log (snd sw) ++ l /\ Forall P l.

(** A call that is neither a write-back nor a timer operation. *)
Definition quietCall (c : HostCall) : Prop :=
  match c with
  | ApplyEdit _ _ _ | SetTimeout _ _ | ClearTimeout _ => False
  | _ => True
  end.

Definition anyCall (c : HostCall) : Prop := True.

Definition sameTimerVar (st st' : AutoSync.State) : Prop :=
  AutoSync.syncTimer st' = AutoSync.syncTimer st.

(** The session as far as edits and timers must leave it: the source, the
    temporary file, the indent, the language and the start of the range. *)
Definition sameSession (st st' : AutoSync.State) : Prop :=
  AutoSync.tempFilePath st' = AutoSync.tempFilePath st
  /\ AutoSync.activeOriginalUri st' = AutoSync.activeOriginalUri st
  /\ AutoSync.baseIndent st' = AutoSync.baseIndent st
  /\ AutoSync.originalLanguageId st' = AutoSync.originalLanguageId st
  /\ (start <$> AutoSync.activeRange st') = (start <$> AutoSync.activeRange st).

(** At most one timer is pending, and it is the one [syncTimer] names. *)
Definition oneTimer (sw : AutoSync.State * World) : Prop :=
  timers (snd sw) = []
  \/ exists tm, timers (snd sw) = [tm] /\ AutoSync.syncTimer (fst sw) = Some (timerId tm).

Definition editOrTime (e : AutoSync.Event) : bool :=
  match e with
  | AutoSync.UserEdit _ _ | AutoSync.Elapse _ => true
  | _ => false
  end.

Definition idleManual : Manual.State := Manual.mkState None None None [].

(** The guard of the change listener (line 103). *)
Definition listens (st : AutoSync.State) (doc : jsstring) : bool :=
  match AutoSync.tempFilePath st with
  | Some tmp =>
      truthyString (Some tmp) && bool_decide (doc = fsPath (Uri_file tmp))
      && defined (AutoSync.activeOriginalUri st) && defined (AutoSync.activeRange st)
  | None => false
  end.

(** A TypeScript file in front, with two lines selected. *)
Definition tsEditor : TextEditor :=
  mkTextEditor
    (mkTextDocument (Uri_file (js "/proj/a.ts")) (js "/proj/a.ts") (js "typescript") srcText)
    (mkSelection (mkPosition 1 0) (mkPosition 2 10)).

Definition tsWorld : World :=
  withFiles (withEditors quietWorld (Some tsEditor) [tsEditor]) {[ js "/proj/a.ts" := srcText ]}.

(** * Properties *)

(** ** Lines *)

Example splitLines_example :
  splitLines (js "a\r\nb\n\nc\r") = [js "a"; js "b"; []; js "c\r"].
Proof. reflexivity. Qed.

Example getCommonIndent_example :
  getCommonIndent (js "    foo();\n    bar();") = js "    ".
Proof. vm_compute. reflexivity. Qed.

Example posix_example :
  posixJoin (posixDirname (js "/proj/src/a.js")) (js ".narrow." ++ posixBasename (js "/proj/src/a.js"))
  = js "/proj/src/.narrow.a.js"
  /\ posixExtname (js "/proj/src/a.JS") = js ".JS"
  /\ sliceText (js "f() {\n    foo();\n    bar();\n}") (mkRange (mkPosition 1 0) (mkPosition 2 10))
     = js "    foo();\n    bar();".
Proof. vm_compute. repeat split; reflexivity. Qed.

Lemma consFirst_length c ls :
  ls <> [] -> length (consFirst c ls) = length ls.
Proof. destruct ls; [congruence | reflexivity]. Qed.

Lemma splitLines_not_nil t : splitLines t <> [].
Proof.
  induction t as [|c t IH]; simpl; [discriminate|].
  destruct (c =? LF); [discriminate|].
  destruct ((c =? CR) && startsWithLF t); [exact IH|].
  destruct (splitLines t); [congruence | discriminate].
Qed.

Lemma splitOnLF_not_nil t : splitOnLF t <> [].
Proof.
  induction t as [|c t IH]; simpl; [discriminate|].
  destruct (c =? LF); [discriminate|].
  destruct (splitOnLF t); [congruence | discriminate].
Qed.

Lemma splitLines_length_pos t : (0 < length (splitLines t))%nat.
Proof. pose proof (splitLines_not_nil t). destruct (splitLines t); simpl; [congruence | lia]. Qed.

Lemma last_consFirst c ls :
  (2 <= length ls)%nat -> List.last (consFirst c ls) [] = List.last ls [].
Proof. destruct ls as [|l [|l' ls]]; simpl; intros; try lia; reflexivity. Qed.

(** Splitting on [\r?\n] and on [\n] give the same number of lines and the
    same last line. *)
Lemma splitLines_vs_splitOnLF t :
  length (splitLines t) = length (splitOnLF t)
  /\ List.last (splitLines t) [] = List.last (splitOnLF t) [].
Proof.
  induction t as [|c t [IHlen IHlast]]; [split; reflexivity|].
  simpl. destruct (c =? LF) eqn:Hc.
  - pose proof (splitLines_not_nil t). pose proof (splitOnLF_not_nil t).
    split; [simpl; congruence|].
    destruct (splitLines t), (splitOnLF t); simpl in *; congruence.
  - destruct ((c =? CR) && startsWithLF t) eqn:Hcr.
    + apply andb_true_iff in Hcr as [_ Hlf].
      destruct t as [|d t]; [discriminate|]. simpl in Hlf.
      simpl in *. rewrite Hlf in *. simpl in *.
      pose proof (splitOnLF_not_nil t).
      split; [exact IHlen|].
      destruct (splitOnLF t); [congruence|]. exact IHlast.
    + pose proof (splitLines_not_nil t). pose proof (splitOnLF_not_nil t).
      split; [rewrite !consFirst_length by assumption; exact IHlen|].
      destruct (splitLines t) as [|a [|a' la]], (splitOnLF t) as [|b [|b' lb]];
        simpl in *; try congruence; try lia.
Qed.

Lemma lookup_last_index {A} (l : list A) (d : A) :
  l <> [] -> l !! (length l - 1)%nat = Some (List.last l d).
Proof.
  induction l as [|x l IH]; [congruence|]. intros _.
  destruct l as [|y l]; [reflexivity|].
  change (List.last (x :: y :: l) d) with (List.last (y :: l) d).
  rewrite <- IH by discriminate. simpl. rewrite Nat.sub_0_r. reflexivity.
Qed.

(** Both variants compute the end position the specification gives. *)
Lemma AutoSync_newEndPos_spec rangeStart t :
  AutoSync.newEndPos rangeStart t = Some (remapRangeEnd_spec rangeStart t).
Proof.
  unfold AutoSync.newEndPos, remapRangeEnd_spec.
  destruct (splitLines_vs_splitOnLF t) as [Hlen Hlast].
  pose proof (splitLines_not_nil t) as Hne. pose proof (splitOnLF_not_nil t) as Hne'.
  rewrite (lookup_last_index _ [] Hne). simpl. rewrite Hlast, Hlen.
  destruct (splitOnLF t) as [|a [|b l]]; [congruence| |].
  - simpl. rewrite Nat.add_0_r. reflexivity.
  - f_equal. f_equal. simpl length. lia.
Qed.

Lemma Manual_newEndPos_spec rangeStart t :
  Manual.newEndPos rangeStart t = Some (remapRangeEnd_spec rangeStart t).
Proof.
  unfold Manual.newEndPos, remapRangeEnd_spec.
  destruct (splitLines_vs_splitOnLF t) as [Hlen Hlast].
  pose proof (splitLines_not_nil t) as Hne. pose proof (splitOnLF_not_nil t) as Hne'.
  rewrite (lookup_last_index _ [] Hne), Hlast, Hlen.
  destruct (splitLines t) as [|a' [|b' l']]; [congruence| |];
    destruct (splitOnLF t) as [|a [|b l]]; simpl in *; try congruence; try lia.
  subst a'. f_equal. f_equal. lia.
Qed.

(** C3: the end position computed after a write-back, in the sync of
    [extension.ts] and in the widen of [part_000], is the one the
    specification gives for [remapRangeEnd]: with the replacement split on
    the line feed, a single line ends at (start.line, start.column + its
    length); several lines end at (start.line + numberOfLines - 1, length
    of the last line).  In particular (2,4) with "ab\ncd" gives (3,2) and
    (5,0) with "xyz" gives (5,3). *)
Theorem remapRangeEnd_correct :
  (forall rangeStart replacementText,
      AutoSync.newEndPos rangeStart replacementText
        = Some (remapRangeEnd_spec rangeStart replacementText)
      /\ Manual.newEndPos rangeStart replacementText
        = Some (remapRangeEnd_spec rangeStart replacementText))
  /\ AutoSync.newEndPos (mkPosition 2 4) (js "ab\ncd") = Some (mkPosition 3 2)
  /\ Manual.newEndPos (mkPosition 2 4) (js "ab\ncd") = Some (mkPosition 3 2)
  /\ AutoSync.newEndPos (mkPosition 5 0) (js "xyz") = Some (mkPosition 5 3)
  /\ Manual.newEndPos (mkPosition 5 0) (js "xyz") = Some (mkPosition 5 3).
Proof.
  split; [|repeat split; reflexivity].
  intros rangeStart t. split.
  - apply AutoSync_newEndPos_spec.
  - apply Manual_newEndPos_spec.
Qed.

(** C9: with the empty indent, [removeIndent] and [addIndent] return their
    input unchanged, line endings included. *)
Theorem empty_indent_identity (T : jsstring) :
  removeIndent T [] = T /\ addIndent T [] = T.
Proof. split; reflexivity. Qed.

(** ** The common indent *)

Lemma dropWhile_nil p s :
  dropWhile p s = [] <-> (forall c, c ∈ s -> p c = true).
Proof.
  induction s as [|a s IH]; simpl.
  - split; [intros _ c Hc; inversion Hc | reflexivity].
  - destruct (p a) eqn:Ha.
    + rewrite IH. split.
      * intros Hs c Hc. apply elem_of_cons in Hc as [->|Hc]; auto.
      * intros Hs c Hc. apply Hs. now apply elem_of_cons; right.
    + split; [discriminate|]. intros Hs.
      rewrite (Hs a) in Ha; [discriminate | now apply elem_of_cons; left].
Qed.

Lemma dropWhile_head p s c r : dropWhile p s = c :: r -> p c = false.
Proof.
  induction s as [|a s IH]; simpl; [discriminate|].
  destruct (p a) eqn:Ha; [exact IH|]. intros [= -> _]. exact Ha.
Qed.

Lemma dropWhile_suffix p s : dropWhile p s `suffix_of` s.
Proof.
  induction s as [|a s IH]; simpl; [reflexivity|].
  destruct (p a); [|reflexivity]. now apply suffix_cons_r.
Qed.

Lemma trim_nil l : trim l = [] <-> blankLine l.
Proof.
  unfold trim, blankLine. split.
  - intros Ht. apply (f_equal (@rev N)) in Ht. rewrite rev_involutive in Ht. simpl in Ht.
    destruct (dropWhile isWhiteSpace l) as [|c r] eqn:Hd.
    + now apply dropWhile_nil.
    + apply dropWhile_head in Hd.
      pose proof (proj1 (dropWhile_nil _ _) Ht c) as Hc.
      rewrite Hc in Hd; [discriminate|].
      apply list_elem_of_In. apply -> in_rev. now left.
  - intros Hb. apply dropWhile_nil in Hb. rewrite Hb. reflexivity.
Qed.

(** The filter of the source keeps exactly the lines that are not blank. *)
Lemma nonBlank_false l : nonBlank l = false <-> blankLine l.
Proof.
  rewrite <- trim_nil. unfold nonBlank.
  destruct (trim l); simpl; split; intros; try reflexivity; try discriminate.
Qed.

Lemma nonBlank_true l :
  nonBlank l = true <-> exists c, c ∈ l /\ isWhiteSpace c = false.
Proof.
  split.
  - intros Hn. unfold nonBlank in Hn.
    destruct (dropWhile isWhiteSpace l) as [|c r] eqn:Hd.
    + unfold trim in Hn. rewrite Hd in Hn. discriminate.
    + exists c. split; [|eapply dropWhile_head; eassumption].
      destruct (dropWhile_suffix isWhiteSpace l) as [k Hk]. rewrite Hk, Hd.
      apply elem_of_app; right. now apply elem_of_cons; left.
  - intros (c & Hc & Hw). destruct (nonBlank l) eqn:Hn; [reflexivity|].
    apply nonBlank_false in Hn. rewrite (Hn c Hc) in Hw. discriminate.
Qed.

Lemma reducer_prefix_l a b : reducer a b `prefix_of` a.
Proof. unfold reducer, substringTo. apply prefix_take. Qed.

Lemma reducer_prefix_r a b : reducer a b `prefix_of` b.
Proof.
  unfold reducer, substringTo. revert b.
  induction a as [|x a IH]; intros [|y b]; simpl; try apply prefix_nil.
  destruct (N.eqb_spec x y) as [->|]; simpl; [|apply prefix_nil].
  apply prefix_cons, IH.
Qed.

Lemma reducer_greatest p a b :
  p `prefix_of` a -> p `prefix_of` b -> p `prefix_of` reducer a b.
Proof.
  unfold reducer, substringTo. revert a b.
  induction p as [|c p IH]; intros a b Ha Hb; [apply prefix_nil|].
  destruct a as [|x a]; [now apply prefix_nil_inv in Ha|].
  destruct b as [|y b]; [now apply prefix_nil_inv in Hb|].
  pose proof (prefix_cons_inv_1 _ _ _ _ Ha). pose proof (prefix_cons_inv_1 _ _ _ _ Hb).
  subst x y. simpl. rewrite N.eqb_refl. simpl.
  apply prefix_cons, IH; eapply prefix_cons_inv_2; eassumption.
Qed.

Lemma fold_reducer_prefix l x :
  fold_left reducer l x `prefix_of` x
  /\ forall y, y ∈ l -> fold_left reducer l x `prefix_of` y.
Proof.
  revert x. induction l as [|a l IH]; intros x; simpl.
  - split; [reflexivity | intros y Hy; inversion Hy].
  - destruct (IH (reducer x a)) as [H1 H2]. split.
    + etransitivity; [exact H1 | apply reducer_prefix_l].
    + intros y Hy. apply elem_of_cons in Hy as [->|Hy]; [|now apply H2].
      etransitivity; [exact H1 | apply reducer_prefix_r].
Qed.

Lemma fold_reducer_greatest p l x :
  p `prefix_of` x -> (forall y, y ∈ l -> p `prefix_of` y) ->
  p `prefix_of` fold_left reducer l x.
Proof.
  revert x. induction l as [|a l IH]; intros x Hx Hl; simpl; [exact Hx|].
  apply IH.
  - apply reducer_greatest; [exact Hx | apply Hl; now apply elem_of_cons; left].
  - intros y Hy. apply Hl. now apply elem_of_cons; right.
Qed.

Lemma getCommonIndent_unfold T :
  getCommonIndent T =
  match List.filter nonBlank (splitLines T) with
  | [] => []
  | l :: ls => fold_left reducer (map leadingWhitespace ls) (leadingWhitespace l)
  end.
Proof.
  unfold getCommonIndent. destruct (List.filter nonBlank (splitLines T)); reflexivity.
Qed.

Lemma elem_of_filter_nonBlank l T :
  l ∈ List.filter nonBlank (splitLines T) <-> l ∈ splitLines T /\ nonBlank l = true.
Proof. rewrite !list_elem_of_In. apply filter_In. Qed.

Lemma getCommonIndent_prefix T l :
  l ∈ splitLines T -> nonBlank l = true ->
  getCommonIndent T `prefix_of` leadingWhitespace l.
Proof.
  intros Hl Hn. rewrite getCommonIndent_unfold.
  assert (Hf : l ∈ List.filter nonBlank (splitLines T)) by now apply elem_of_filter_nonBlank.
  destruct (List.filter nonBlank (splitLines T)) as [|l0 ls]; [inversion Hf|].
  destruct (fold_reducer_prefix (map leadingWhitespace ls) (leadingWhitespace l0)) as [H1 H2].
  apply elem_of_cons in Hf as [->|Hf]; [exact H1|].
  apply H2. now apply list_elem_of_fmap_2.
Qed.

Lemma getCommonIndent_greatest T p :
  (exists l, l ∈ splitLines T /\ nonBlank l = true) ->
  (forall l, l ∈ splitLines T -> nonBlank l = true -> p `prefix_of` leadingWhitespace l) ->
  p `prefix_of` getCommonIndent T.
Proof.
  intros (l & Hl & Hn) Hp. rewrite getCommonIndent_unfold.
  assert (Hf : l ∈ List.filter nonBlank (splitLines T)) by now apply elem_of_filter_nonBlank.
  assert (Hall : forall y, y ∈ List.filter nonBlank (splitLines T) ->
                           p `prefix_of` leadingWhitespace y).
  { intros y Hy. apply elem_of_filter_nonBlank in Hy as [Hy1 Hy2]. now apply Hp. }
  destruct (List.filter nonBlank (splitLines T)) as [|l0 ls]; [inversion Hf|].
  apply fold_reducer_greatest.
  - apply Hall. now apply elem_of_cons; left.
  - intros y Hy. apply list_elem_of_fmap in Hy as (z & -> & Hz).
    apply Hall. now apply elem_of_cons; right.
Qed.

(** The lines the source obtains with [split(/\r?\n/)] are the lines of
    the text: its pieces between line feeds, without the carriage return of
    a CR LF break. *)
Lemma splitOnLF_first_empty T rest :
  splitOnLF T = [] :: rest -> rest <> [] -> startsWithLF T = true.
Proof.
  destruct T as [|c T]; simpl.
  - intros [= <-] Hr. now contradiction Hr.
  - destruct (c =? LF); [reflexivity|].
    destruct (splitOnLF T); discriminate.
Qed.

Lemma stripCRs_cons l ls : ls <> [] -> stripCRs (l :: ls) = stripCR l :: stripCRs ls.
Proof. destruct ls; [intros Hn; now contradiction Hn | reflexivity]. Qed.

Lemma stripCR_cons c x : x <> [] -> stripCR (c :: x) = c :: stripCR x.
Proof.
  destruct x as [|d x]; [intros Hn; now contradiction Hn|]. intros _.
  unfold stripCR, endsWithCR.
  change (List.last (c :: d :: x) 0) with (List.last (d :: x) 0).
  change (removelast (c :: d :: x)) with (c :: removelast (d :: x)).
  destruct (List.last (d :: x) 0 =? CR); reflexivity.
Qed.

Lemma stripCRs_consFirst c X :
  (forall rest, X = [] :: rest -> rest <> [] -> c <> CR) ->
  stripCRs (consFirst c X) = consFirst c (stripCRs X).
Proof.
  destruct X as [|x rest]; [reflexivity|]. intros Hc.
  destruct rest as [|y rest]; [reflexivity|].
  change (consFirst c (x :: y :: rest)) with ((c :: x) :: y :: rest).
  rewrite (stripCRs_cons (c :: x)), (stripCRs_cons x) by discriminate.
  change (consFirst c (stripCR x :: stripCRs (y :: rest)))
    with ((c :: stripCR x) :: stripCRs (y :: rest)).
  f_equal. destruct x as [|d x]; [|apply stripCR_cons; discriminate].
  assert (Hne : c <> CR) by (apply (Hc (y :: rest)); [reflexivity | discriminate]).
  unfold stripCR, endsWithCR. simpl.
  destruct (N.eqb_spec c CR); [contradiction | reflexivity].
Qed.

Lemma splitLines_linesOf T : splitLines T = linesOf T.
Proof.
  unfold linesOf. induction T as [|c T IH]; [reflexivity|]. simpl.
  destruct (N.eqb_spec c LF) as [->|Hc].
  - rewrite stripCRs_cons by apply splitOnLF_not_nil. now rewrite IH.
  - destruct (N.eqb_spec c CR) as [->|Hcr]; simpl.
    + destruct (startsWithLF T) eqn:Hs.
      * destruct T as [|d T]; [discriminate|]. simpl in Hs, IH |- *.
        rewrite Hs in IH |- *. rewrite IH.
        change (consFirst CR ([] :: splitOnLF T)) with ([CR] :: splitOnLF T).
        rewrite !stripCRs_cons by apply splitOnLF_not_nil. reflexivity.
      * rewrite IH. symmetry. apply stripCRs_consFirst.
        intros rest Hx Hr. rewrite (splitOnLF_first_empty _ _ Hx Hr) in Hs. discriminate.
    + rewrite IH. symmetry. apply stripCRs_consFirst. intros; exact Hcr.
Qed.

(** [leadingWhitespace], the match of [/^\s*/], is the one leading
    whitespace run of a line. *)
Lemma leadingWhitespace_run l : leadingRun (leadingWhitespace l) l.
Proof.
  unfold leadingRun, leadingWhitespace.
  induction l as [|a l (rest & Hl & Hw & Hr)]; simpl.
  - exists []. split; [reflexivity|]. split; [intros c Hc; inversion Hc | discriminate].
  - destruct (isWhiteSpace a) eqn:Ha.
    + exists rest. split; [simpl; now f_equal|]. split; [|exact Hr].
      intros c Hc. apply elem_of_cons in Hc as [->|Hc]; auto.
    + exists (a :: l). split; [reflexivity|]. split; [intros c Hc; inversion Hc|].
      now intros c rest' [= <- _].
Qed.

Lemma leadingRun_unique w l : leadingRun w l -> w = leadingWhitespace l.
Proof.
  intros (rest & -> & Hw & Hr). unfold leadingWhitespace.
  induction w as [|a w IH]; simpl.
  - destruct rest as [|c rest]; [reflexivity|]. simpl.
    now rewrite (Hr c rest eq_refl).
  - rewrite (Hw a) by (now apply elem_of_cons; left). f_equal.
    apply IH. intros c Hc. apply Hw. now apply elem_of_cons; right.
Qed.

Lemma nonBlank_not_blank l : nonBlank l = true <-> ~ blankLine l.
Proof.
  split.
  - intros Hn Hb. apply nonBlank_false in Hb. congruence.
  - intros Hb. destruct (nonBlank l) eqn:Hn; [reflexivity|].
    apply nonBlank_false in Hn. contradiction.
Qed.

(** C2: the result of [getCommonIndent] is a prefix of the leading
    whitespace run of every non-blank line of the text, for either line
    ending; when the text has a non-blank line, every string that is a
    prefix of all these runs is a prefix of the result, so none is strictly
    longer; when the text has no non-blank line the result is the empty
    string.  Lines, blank lines and leading whitespace runs are those of
    the specification ([linesOf], [blankLine], [leadingRun]), not the
    helpers of the code; code units are compared literally. *)
Theorem getCommonIndent_longest_common_prefix (T : jsstring) :
  (forall l w, l ∈ linesOf T -> ~ blankLine l -> leadingRun w l ->
     getCommonIndent T `prefix_of` w)
  /\ ((exists l, l ∈ linesOf T /\ ~ blankLine l) ->
      forall p,
        (forall l w, l ∈ linesOf T -> ~ blankLine l -> leadingRun w l ->
           p `prefix_of` w) ->
        p `prefix_of` getCommonIndent T
        /\ ~ (length (getCommonIndent T) < length p)%nat)
  /\ ((forall l, l ∈ linesOf T -> blankLine l) -> getCommonIndent T = []).
Proof.
  rewrite <- splitLines_linesOf. split; [|split].
  - intros l w Hl Hn Hw. rewrite (leadingRun_unique _ _ Hw).
    apply getCommonIndent_prefix; [exact Hl | now apply nonBlank_not_blank].
  - intros (l & Hl & Hn) p Hp.
    assert (Hpre : p `prefix_of` getCommonIndent T).
    { apply getCommonIndent_greatest.
      - exists l. split; [exact Hl | now apply nonBlank_not_blank].
      - intros l' Hl' Hn'. apply (Hp l'); [exact Hl' | | apply leadingWhitespace_run].
        now apply nonBlank_not_blank. }
    split; [exact Hpre|]. apply prefix_length in Hpre. lia.
  - intros Hb. rewrite getCommonIndent_unfold.
    destruct (List.filter nonBlank (splitLines T)) as [|l0 ls] eqn:Hf; [reflexivity|].
    assert (Hl0 : l0 ∈ List.filter nonBlank (splitLines T))
      by (rewrite Hf; now apply elem_of_cons; left).
    apply elem_of_filter_nonBlank in Hl0 as [H1 H2].
    apply Hb, nonBlank_false in H1. congruence.
Qed.

(** ** The round trip *)

Lemma elem_of_consFirst c ls l :
  l ∈ consFirst c ls ->
  (exists l0, l = c :: l0 /\ (l0 ∈ ls \/ ls = [] /\ l0 = [])) \/ l ∈ ls.
Proof.
  destruct ls as [|l0 ls]; simpl; intros Hl.
  - apply list_elem_of_singleton in Hl as ->. left. exists []. auto.
  - apply elem_of_cons in Hl as [->|Hl].
    + left. exists l0. split; [reflexivity|]. left. now apply elem_of_cons; left.
    + right. now apply elem_of_cons; right.
Qed.

Lemma splitLines_no_LF t l : l ∈ splitLines t -> LF ∉ l.
Proof.
  revert l. induction t as [|c t IH]; simpl; intros l Hl.
  - apply list_elem_of_singleton in Hl as ->. apply not_elem_of_nil.
  - destruct (N.eqb_spec c LF) as [->|Hc].
    + apply elem_of_cons in Hl as [->|Hl]; [apply not_elem_of_nil | now apply IH].
    + destruct ((c =? CR) && startsWithLF t); [now apply IH|].
      apply elem_of_consFirst in Hl as [(l0 & -> & [Hl0|[_ ->]])|Hl].
      * apply not_elem_of_cons. split; [congruence | now apply IH].
      * apply not_elem_of_cons. split; [congruence | apply not_elem_of_nil].
      * now apply IH.
Qed.

Lemma splitLines_single l : LF ∉ l -> splitLines l = [l].
Proof.
  induction l as [|c l IH]; [reflexivity|]. intros Hn.
  apply not_elem_of_cons in Hn as [Hc Hl]. simpl.
  destruct (N.eqb_spec c LF) as [->|_]; [congruence|].
  assert (Hs : startsWithLF l = false).
  { destruct l as [|d l]; [reflexivity|]. simpl.
    apply not_elem_of_cons in Hl as [Hd _]. apply N.eqb_neq. congruence. }
  rewrite Hs, andb_false_r, IH by assumption. reflexivity.
Qed.

Lemma splitLines_app_LF l r :
  LF ∉ l -> endsWithCR l = false ->
  splitLines (l ++ LF :: r) = l :: splitLines r.
Proof.
  induction l as [|c l IH]; [reflexivity|]. intros Hn Hcr.
  apply not_elem_of_cons in Hn as [Hc Hl]. simpl.
  destruct (N.eqb_spec c LF) as [->|_]; [congruence|].
  assert (Hs : (c =? CR) && startsWithLF (l ++ LF :: r) = false).
  { destruct l as [|d l]; simpl.
    - unfold endsWithCR in Hcr. simpl in Hcr. rewrite Hcr. reflexivity.
    - apply not_elem_of_cons in Hl as [Hd _].
      replace (d =? LF) with false by (symmetry; apply N.eqb_neq; congruence).
      apply andb_false_r. }
  rewrite Hs, IH; [reflexivity | assumption |].
  destruct l as [|d l]; [reflexivity | exact Hcr].
Qed.

Lemma splitLines_joinLF ls :
  ls <> [] -> (forall l, l ∈ ls -> LF ∉ l) ->
  forallb (fun l => negb (endsWithCR l)) (removelast ls) = true ->
  splitLines (joinLF ls) = ls.
Proof.
  induction ls as [|l ls IH]; [congruence|]. intros _ Hlf Hcr.
  destruct ls as [|l' ls].
  - simpl. apply splitLines_single, Hlf. now apply elem_of_cons; left.
  - change (joinLF (l :: l' :: ls)) with (l ++ LF :: joinLF (l' :: ls)).
    change (removelast (l :: l' :: ls)) with (l :: removelast (l' :: ls)) in Hcr.
    simpl forallb in Hcr. apply andb_true_iff in Hcr as [Hl Hcr].
    rewrite splitLines_app_LF.
    + f_equal. apply IH; [discriminate | | exact Hcr].
      intros x Hx. apply Hlf. now apply elem_of_cons; right.
    + apply Hlf. now apply elem_of_cons; left.
    + now apply negb_true_iff.
Qed.

Lemma removelast_map {A B} (f : A -> B) l :
  removelast (map f l) = map f (removelast l).
Proof.
  induction l as [|x [|y l] IH]; try reflexivity.
  change (f x :: removelast (map f (y :: l)) = f x :: map f (removelast (y :: l))).
  now rewrite IH.
Qed.

Lemma endsWithCR_drop n l : endsWithCR l = false -> endsWithCR (drop n l) = false.
Proof.
  revert n. induction l as [|c l IH]; intros n Hl; [now destruct n|].
  destruct n as [|n]; [exact Hl|]. simpl. apply IH.
  destruct l as [|d l]; [reflexivity | exact Hl].
Qed.

Lemma last_app_cons {A} (a : list A) x b d :
  List.last (a ++ x :: b) d = List.last (x :: b) d.
Proof.
  induction a as [|y a IH]; [reflexivity|].
  simpl app. rewrite <- IH. destruct (a ++ x :: b) eqn:E; [|reflexivity].
  now destruct a.
Qed.

Lemma endsWithCR_removeIndentLine I l :
  endsWithCR l = false -> endsWithCR (removeIndentLine I l) = false.
Proof.
  unfold removeIndentLine, substringFrom. destruct (startsWith l I); [|auto].
  apply endsWithCR_drop.
Qed.

Lemma endsWithCR_addIndentLine I l :
  endsWithCR l = false -> endsWithCR (addIndentLine I l) = false.
Proof.
  unfold addIndentLine. destruct l as [|c l]; simpl; [auto|].
  unfold endsWithCR. now rewrite last_app_cons.
Qed.

Lemma forallb_noCR_map f ls :
  (forall l, endsWithCR l = false -> endsWithCR (f l) = false) ->
  forallb (fun l => negb (endsWithCR l)) ls = true ->
  forallb (fun l => negb (endsWithCR l)) (map f ls) = true.
Proof.
  intros Hf. induction ls as [|l ls IH]; simpl; [reflexivity|].
  intros H. apply andb_true_iff in H as [H1 H2].
  apply negb_true_iff in H1. rewrite (Hf l H1). simpl. now apply IH.
Qed.

Lemma takeWhile_prefix p s : takeWhile p s `prefix_of` s.
Proof.
  induction s as [|c s IH]; simpl; [reflexivity|].
  destruct (p c); [now apply prefix_cons | apply prefix_nil].
Qed.

Lemma takeWhile_all p s c : c ∈ takeWhile p s -> p c = true.
Proof.
  induction s as [|a s IH]; simpl; [intros H; inversion H|].
  destruct (p a) eqn:Ha; [|intros H; inversion H].
  intros H. apply elem_of_cons in H as [->|H]; auto.
Qed.

Lemma startsWith_prefix s p : startsWith s p = true <-> p `prefix_of` s.
Proof.
  revert s. induction p as [|a p IH]; intros s; simpl.
  - split; [intros _; apply prefix_nil | reflexivity].
  - destruct s as [|b s].
    + split; [discriminate | intros H; now apply prefix_nil_inv in H].
    + rewrite andb_true_iff, IH, N.eqb_eq. split.
      * intros [-> H]. now apply prefix_cons.
      * intros H. split; [eapply prefix_cons_inv_1 | eapply prefix_cons_inv_2]; eassumption.
Qed.

Lemma roundTripLine_nil_indent l : roundTripLine [] l = l.
Proof.
  unfold roundTripLine, removeIndentLine, addIndentLine, substringFrom. simpl.
  rewrite drop_0. now destruct l.
Qed.

Lemma roundTripLine_prefix I l :
  I `prefix_of` l -> l <> I -> roundTripLine I l = l.
Proof.
  intros Hp Hne. unfold roundTripLine, removeIndentLine, substringFrom.
  rewrite (proj2 (startsWith_prefix l I) Hp). destruct Hp as [k ->].
  rewrite drop_app_length. unfold addIndentLine.
  destruct k as [|c k]; [rewrite app_nil_r in Hne; congruence | reflexivity].
Qed.

Lemma roundTripLine_self I : roundTripLine I I = [].
Proof.
  unfold roundTripLine, removeIndentLine, substringFrom.
  rewrite (proj2 (startsWith_prefix I I)) by reflexivity.
  rewrite drop_all. reflexivity.
Qed.

Lemma roundTripLine_other I l :
  l <> [] -> ~ I `prefix_of` l -> roundTripLine I l = I ++ l.
Proof.
  intros Hne Hp. unfold roundTripLine, removeIndentLine.
  destruct (startsWith l I) eqn:Hs; [now apply startsWith_prefix in Hs|].
  unfold addIndentLine. destruct l; [congruence | reflexivity].
Qed.

Lemma getCommonIndent_line_prefix T l :
  l ∈ splitLines T -> nonBlank l = true ->
  getCommonIndent T `prefix_of` l /\ l <> getCommonIndent T.
Proof.
  intros Hl Hn. pose proof (getCommonIndent_prefix T l Hl Hn) as Hp. split.
  - etransitivity; [exact Hp | apply takeWhile_prefix].
  - intros He. apply nonBlank_true in Hn as (c & Hc & Hw).
    rewrite He in Hc. destruct Hp as [k Hk]. unfold leadingWhitespace in Hk.
    assert (Hc' : c ∈ takeWhile isWhiteSpace l)
      by (rewrite Hk; apply elem_of_app; now left).
    apply takeWhile_all in Hc'. congruence.
Qed.

Lemma getCommonIndent_no_LF T : LF ∉ getCommonIndent T.
Proof.
  rewrite getCommonIndent_unfold.
  destruct (List.filter nonBlank (splitLines T)) as [|l ls] eqn:Hf; [apply not_elem_of_nil|].
  assert (Hl : l ∈ List.filter nonBlank (splitLines T))
    by (rewrite Hf; now apply elem_of_cons; left).
  apply elem_of_filter_nonBlank in Hl as [Hl _].
  destruct (fold_reducer_prefix (map leadingWhitespace ls) (leadingWhitespace l)) as [[k Hk] _].
  destruct (takeWhile_prefix isWhiteSpace l) as [k' Hk'].
  unfold leadingWhitespace in Hk. intros Hin.
  apply (splitLines_no_LF T l Hl). rewrite Hk', Hk.
  apply elem_of_app; left. apply elem_of_app; now left.
Qed.

Lemma roundTrip_lines T :
  noCRBeforeBreak T = true ->
  splitLines (roundTrip T) = map (roundTripLine (getCommonIndent T)) (splitLines T).
Proof.
  intros Hcr. unfold roundTrip, addIndent, removeIndent.
  pose proof (getCommonIndent_no_LF T) as HI.
  destruct (getCommonIndent T) as [|c I] eqn:HeqI; simpl falsy; cbv iota.
  - rewrite <- (map_id (splitLines T)) at 1.
    apply map_ext. intros l. now rewrite roundTripLine_nil_indent.
  - set (J := c :: I) in *.
    assert (Hstrip : splitLines (joinLF (map (removeIndentLine J) (splitLines T)))
                     = map (removeIndentLine J) (splitLines T)).
    { apply splitLines_joinLF.
      - pose proof (splitLines_not_nil T). destruct (splitLines T); [congruence | discriminate].
      - intros s Hs. apply list_elem_of_fmap in Hs as (l & -> & Hl).
        pose proof (splitLines_no_LF T l Hl) as Hlf.
        unfold removeIndentLine, substringFrom. destruct (startsWith l J); [|exact Hlf].
        intros Hin. apply Hlf. rewrite <- (take_drop (length J) l).
        apply elem_of_app; now right.
      - rewrite removelast_map. apply forallb_noCR_map; [|exact Hcr].
        apply endsWithCR_removeIndentLine. }
    rewrite Hstrip.
    replace (map (roundTripLine J) (splitLines T))
      with (map (addIndentLine J) (map (removeIndentLine J) (splitLines T)))
      by (rewrite map_map; reflexivity).
    apply splitLines_joinLF.
    + pose proof (splitLines_not_nil T). destruct (splitLines T); [congruence | discriminate].
    + intros s Hs. apply list_elem_of_fmap in Hs as (s0 & -> & Hs0).
      apply list_elem_of_fmap in Hs0 as (l & -> & Hl).
      pose proof (splitLines_no_LF T l Hl) as Hlf.
      assert (Hr : LF ∉ removeIndentLine J l).
      { unfold removeIndentLine, substringFrom. destruct (startsWith l J); [|exact Hlf].
        intros Hin. apply Hlf. rewrite <- (take_drop (length J) l).
        apply elem_of_app; now right. }
      unfold addIndentLine. destruct (0 <? length (removeIndentLine J l))%nat; [|exact Hr].
      intros Hin. apply elem_of_app in Hin as [Hin|Hin]; auto.
    + rewrite !removelast_map. apply forallb_noCR_map; [apply endsWithCR_addIndentLine|].
      apply forallb_noCR_map; [apply endsWithCR_removeIndentLine | exact Hcr].
Qed.

(** A carriage return in front of a separator does not survive the round
    trip: the text is rejoined with line feeds and split again. *)
Example roundTrip_drops_cr_before_break :
  splitLines (js " a\r\r\n b") !! O = Some (js " a\r")
  /\ nonBlank (js " a\r") = true
  /\ splitLines (roundTrip (js " a\r\r\n b")) !! O = Some (js " a").
Proof. vm_compute. repeat split; reflexivity. Qed.

(** C1 (as amended): for a text [T] in which no line but the last ends in a
    carriage return, with [I] the common indent, the round trip has as many
    lines as [T]; every non-blank line comes back unchanged and every empty
    line stays empty.  A whitespace-only line is not emptied in general: a
    line that starts with [I] and is longer comes back unchanged, a line
    equal to [I] comes back empty, and a non-empty line that does not start
    with [I] comes back with [I] in front. *)
Theorem roundTrip_by_lines (T : jsstring) :
  noCRBeforeBreak T = true ->
  length (splitLines (roundTrip T)) = length (splitLines T)
  /\ forall i l, splitLines T !! i = Some l ->
       exists r, splitLines (roundTrip T) !! i = Some r
         /\ (nonBlank l = true -> r = l)
         /\ (l = [] -> r = [])
         /\ (getCommonIndent T `prefix_of` l -> l <> getCommonIndent T -> r = l)
         /\ (l = getCommonIndent T -> r = [])
         /\ (l <> [] -> ~ getCommonIndent T `prefix_of` l -> r = getCommonIndent T ++ l).
Proof.
  intros Hcr. rewrite (roundTrip_lines T Hcr). split; [apply length_map|].
  intros i l Hl. exists (roundTripLine (getCommonIndent T) l).
  split; [rewrite list_lookup_fmap, Hl; reflexivity|].
  assert (Hin : l ∈ splitLines T) by (eapply list_elem_of_lookup_2; eassumption).
  repeat split.
  - intros Hn. destruct (getCommonIndent_line_prefix T l Hin Hn).
    now apply roundTripLine_prefix.
  - intros ->. unfold roundTripLine, removeIndentLine, substringFrom.
    destruct (startsWith [] (getCommonIndent T)); now rewrite ?drop_nil.
  - apply roundTripLine_prefix.
  - intros ->. apply roundTripLine_self.
  - apply roundTripLine_other.
Qed.

Lemma roundTrip_by_lines_witness :
  noCRBeforeBreak (js "  a\r\n\n   \n  b") = true
  /\ length (splitLines (roundTrip (js "  a\r\n\n   \n  b")))
     = length (splitLines (js "  a\r\n\n   \n  b")).
Proof.
  split; [reflexivity|].
  exact (proj1 (roundTrip_by_lines (js "  a\r\n\n   \n  b") eq_refl)).
Defined.

(** C1 as the specification words it fails: a whitespace-only line that is
    longer than the common indent comes back unchanged, not empty. *)
Lemma roundTrip_keeps_whitespace_line :
  ~ roundTripAsSpecified (js "  a\n    \n  b").
Proof.
  intros H. specialize (H 1%nat (js "    ") eq_refl).
  vm_compute in H. discriminate H.
Qed.

Lemma getCommonIndent_witness :
  getCommonIndent (js "  a\r\n    b") `prefix_of` js "    "
  /\ js "  " `prefix_of` getCommonIndent (js "  a\r\n    b")
  /\ getCommonIndent (js " \n") = [].
Proof.
  assert (Hb : ~ blankLine (js "    b")).
  { intros Hb. specialize (Hb 98). discriminate Hb.
    apply list_elem_of_In. vm_compute. tauto. }
  assert (Hl : js "    b" ∈ linesOf (js "  a\r\n    b")).
  { apply list_elem_of_In. vm_compute. right; left; reflexivity. }
  split; [|split].
  - apply (proj1 (getCommonIndent_longest_common_prefix (js "  a\r\n    b"))
             (js "    b") (js "    ") Hl Hb).
    exists (js "b"). split; [reflexivity|]. split.
    + intros c Hc. apply list_elem_of_In in Hc. vm_compute in Hc.
      destruct Hc as [<-|[<-|[<-|[<-|[]]]]]; reflexivity.
    + intros c rest' [= <- _]. reflexivity.
  - apply (proj1 (proj2 (getCommonIndent_longest_common_prefix (js "  a\r\n    b")))
             (ex_intro _ (js "    b") (conj Hl Hb))).
    intros l w Hl' _ Hw. rewrite (leadingRun_unique _ _ Hw).
    apply list_elem_of_In in Hl'. vm_compute in Hl'.
    destruct Hl' as [<-|[<-|[]]]; [exists [] | exists (js "  ")]; reflexivity.
  - apply (proj2 (proj2 (getCommonIndent_longest_common_prefix (js " \n")))).
    intros l Hl' c Hc. apply list_elem_of_In in Hl'. vm_compute in Hl'.
    destruct Hl' as [<-|[<-|[]]]; apply list_elem_of_In in Hc; vm_compute in Hc.
    + destruct Hc as [<-|[]]. reflexivity.
    + destruct Hc.
Defined.

(** ** Running handlers *)

Ltac run_handler :=
  cbv [exec mbind M_bind mret M_ret getState putState getWorld putWorld throw emit
       invoke when liftOption applyEdit existsSync unlinkSync openTextDocument
       showTextDocument executeCommand setTextDocumentLanguage writeFileSync
       setTimeout clearTimeout getText AutoSync.modify fst snd].

Lemma isBefore_remap s t : isBefore (remapRangeEnd_spec s t) s = false.
Proof.
  unfold remapRangeEnd_spec, isBefore.
  pose proof (splitOnLF_not_nil t).
  destruct (splitOnLF t) as [|a [|b l]]; [congruence| |]; simpl.
  - apply orb_false_iff. split; [apply Nat.ltb_ge; lia|].
    apply andb_false_iff. right. apply Nat.ltb_ge. lia.
  - apply orb_false_iff. split; [apply Nat.ltb_ge; lia|].
    apply andb_false_iff. left. apply Nat.eqb_neq. lia.
Qed.

(** The new range keeps its start: the constructor never swaps. *)
Lemma newRange_remap s t :
  newRange s (remapRangeEnd_spec s t) = mkRange s (remapRangeEnd_spec s t).
Proof. unfold newRange. now rewrite isBefore_remap. Qed.

Lemma writeBacks_app l1 l2 : writeBacks (l1 ++ l2) = writeBacks l1 ++ writeBacks l2.
Proof. apply omap_app. Qed.

(** ** The sync of the auto-sync variant *)

(** The whole effect of one run of the timer callback. *)
Lemma syncCallback_run st w doc edited original range :
  buffers w !! doc = Some edited ->
  AutoSync.activeOriginalUri st = Some original ->
  AutoSync.activeRange st = Some range ->
  let t := addIndent edited (AutoSync.baseIndent st) in
  let w' := withLog w (log w ++ [ApplyEdit original range t]) in
  AutoSync.syncCallback doc (st, w) =
    if throws w (ApplyEdit original range t)
    then (None, (AutoSync.withSyncing st true, w'))
    else if applyEditResult w original range t
    then (Some tt,
          (AutoSync.withSyncing
             (AutoSync.withRange st
                (Some (mkRange (start range) (remapRangeEnd_spec (start range) t))))
             false, w'))
    else (Some tt, (AutoSync.withSyncing st false, w')).
Proof.
  intros Hb Hu Hr t w'. unfold AutoSync.syncCallback. run_handler.
  rewrite Hb. cbn. rewrite Hu, Hr. fold t.
  destruct (throws w (ApplyEdit original range t)); [reflexivity|].
  cbn. fold t. destruct (applyEditResult w original range t); [|reflexivity].
  rewrite AutoSync_newEndPos_spec. cbn. rewrite newRange_remap. reflexivity.
Qed.

(** C6: when the host rejects the replace-edit of a sync ([applyEdit]
    resolves to false) the sync is dropped: the tracked range is the one
    before the sync and the session stays narrowed; of the variables only
    [isSyncing] is written (set, then reset).  When the edit succeeds the
    range becomes the old start with the remapped end.  The range changes
    only in runs where [applyEdit] resolved to true. *)
Theorem sync_rejected_is_dropped st w doc edited original range :
  buffers w !! doc = Some edited ->
  AutoSync.activeOriginalUri st = Some original ->
  AutoSync.activeRange st = Some range ->
  let t := addIndent edited (AutoSync.baseIndent st) in
  let st' := fst (exec (AutoSync.syncCallback doc) (st, w)) in
  writeBacks (log (snd (exec (AutoSync.syncCallback doc) (st, w))))
    = writeBacks (log w) ++ [(original, range, t)]
  /\ (throws w (ApplyEdit original range t) = false ->
      applyEditResult w original range t = false ->
      st' = AutoSync.withSyncing st false
      /\ AutoSync.activeRange st' = Some range
      /\ AutoSync.narrowed st' = AutoSync.narrowed st)
  /\ (throws w (ApplyEdit original range t) = false ->
      applyEditResult w original range t = true ->
      st' = AutoSync.withSyncing
              (AutoSync.withRange st
                 (Some (mkRange (start range) (remapRangeEnd_spec (start range) t))))
              false)
  /\ (AutoSync.activeRange st' <> AutoSync.activeRange st ->
      applyEditResult w original range t = true)
  /\ AutoSync.tempFilePath st' = AutoSync.tempFilePath st
  /\ AutoSync.activeOriginalUri st' = AutoSync.activeOriginalUri st.
Proof.
  intros Hb Hu Hr t st'. subst st'. unfold exec.
  rewrite (syncCallback_run st w doc edited original range Hb Hu Hr). fold t.
  destruct st as [u r tmp ind lang syncing timer]. cbn in Hu, Hr. subst u r.
  destruct (throws w (ApplyEdit original range t)),
           (applyEditResult w original range t); cbn;
    rewrite writeBacks_app; cbn;
    repeat split; try reflexivity; try discriminate; intros; congruence.
Qed.

Lemma sync_rejected_is_dropped_witness :
  AutoSync.activeRange
    (fst (exec (AutoSync.syncCallback tmpPath) (narrowedAuto, lockedWorld)))
  = Some selectedRange.
Proof.
  assert (Hb : buffers lockedWorld !! tmpPath = Some editedText)
    by (vm_compute; reflexivity).
  exact (proj1 (proj2 (proj1 (proj2
    (sync_rejected_is_dropped narrowedAuto lockedWorld tmpPath editedText
       (Uri_file srcPath) selectedRange Hb eq_refl eq_refl)) eq_refl eq_refl))).
Defined.

(** C5 (as amended): with base indent of four spaces (the common indent of
    the selection "    foo();\n    bar();", whose de-indented text is
    "foo();\nbar();") and the detached buffer edited to
    "foo();\nbaz();\nqux();", the sync asks the host to replace the tracked
    range by "    foo();\n    baz();\n    qux();"; once the edit is
    applied the tracked range ends at (start line + 2, 10), the length of
    the last line written back. *)
Theorem sync_scenario st w doc original range :
  AutoSync.baseIndent st = js "    " ->
  buffers w !! doc = Some editedText ->
  AutoSync.activeOriginalUri st = Some original ->
  AutoSync.activeRange st = Some range ->
  throws w (ApplyEdit original range (js "    foo();\n    baz();\n    qux();")) = false ->
  applyEditResult w original range (js "    foo();\n    baz();\n    qux();") = true ->
  getCommonIndent (js "    foo();\n    bar();") = js "    "
  /\ removeIndent (js "    foo();\n    bar();") (js "    ") = js "foo();\nbar();"
  /\ log (snd (exec (AutoSync.syncCallback doc) (st, w)))
     = log w ++ [ApplyEdit original range (js "    foo();\n    baz();\n    qux();")]
  /\ AutoSync.activeRange (fst (exec (AutoSync.syncCallback doc) (st, w)))
     = Some (mkRange (start range) (mkPosition (line (start range) + 2) 10)).
Proof.
  intros Hi Hb Hu Hr Ht Hok.
  split; [vm_compute; reflexivity|]. split; [vm_compute; reflexivity|].
  unfold exec. rewrite (syncCallback_run st w doc editedText original range Hb Hu Hr).
  rewrite Hi.
  change (addIndent editedText (js "    ")) with (js "    foo();\n    baz();\n    qux();").
  rewrite Ht, Hok. cbv [fst snd]. split; [reflexivity|].
  cbn [AutoSync.activeRange AutoSync.withSyncing AutoSync.withRange].
  f_equal. f_equal.
  change (remapRangeEnd_spec (start range) (js "    foo();\n    baz();\n    qux();"))
    with (mkPosition (line (start range) + 3 - 1) 10).
  f_equal. lia.
Qed.

Lemma sync_scenario_witness :
  AutoSync.activeRange
    (fst (exec (AutoSync.syncCallback tmpPath) (narrowedAuto, narrowWindowWorld)))
  = Some (mkRange (mkPosition 1 0) (mkPosition 3 10)).
Proof.
  assert (Hb : buffers narrowWindowWorld !! tmpPath = Some editedText)
    by (vm_compute; reflexivity).
  exact (proj2 (proj2 (proj2
    (sync_scenario narrowedAuto narrowWindowWorld tmpPath (Uri_file srcPath) selectedRange
       eq_refl Hb eq_refl eq_refl eq_refl eq_refl)))).
Defined.

(** C5 as the specification words it fails: the last line written back,
    four spaces and "qux();", has ten code units, so the range ends in
    column 10 and not in column 9. *)
Lemma sync_scenario_end_is_not_column_9 : ~ syncScenarioAsSpecified.
Proof.
  intros [_ H]. vm_compute in H. discriminate H.
Qed.

(** ** Debouncing *)

(** The whole effect of the change listener on an edit of the detached
    buffer while a session is active: the pending timer, if any, is
    cleared and a new one is set. *)
Lemma changeListener_run st w tmp original range :
  AutoSync.tempFilePath st = Some tmp -> tmp <> [] ->
  AutoSync.activeOriginalUri st = Some original ->
  AutoSync.activeRange st = Some range ->
  AutoSync.changeListener tmp (st, w) =
    (Some tt,
     (AutoSync.withTimer st (Some (nextTimer w)),
      withLog
        (withTimers w
           (match AutoSync.syncTimer st with
            | Some t => List.filter (fun tm => negb (timerId tm =? t)%nat) (timers w)
            | None => timers w
            end ++ [mkTimer (nextTimer w) (now w + 300) tmp])
           (Datatypes.S (nextTimer w)))
        (match AutoSync.syncTimer st with
         | Some t => log w ++ [ClearTimeout t]
         | None => log w
         end ++ [SetTimeout (nextTimer w) 300]))).
Proof.
  intros Ht Hne Hu Hr. unfold AutoSync.changeListener. run_handler.
  rewrite Ht, Hu, Hr. destruct tmp as [|c tmp]; [congruence|].
  cbn [truthyString defined fsPath Uri_file andb].
  rewrite bool_decide_eq_true_2 by reflexivity.
  destruct (AutoSync.syncTimer st); reflexivity.
Qed.

Lemma edit_starts_timer `{Host} st w tmp original range t :
  AutoSync.tempFilePath st = Some tmp -> tmp <> [] ->
  AutoSync.activeOriginalUri st = Some original ->
  AutoSync.activeRange st = Some range ->
  (timers w = []
   \/ exists id d, AutoSync.syncTimer st = Some id /\ timers w = [mkTimer id d tmp]) ->
  pendingSync tmp original range (AutoSync.baseIndent st) t
    (AutoSync.step (st, w) (AutoSync.UserEdit tmp t))
  /\ writeBacks (log (snd (AutoSync.step (st, w) (AutoSync.UserEdit tmp t))))
     = writeBacks (log w).
Proof.
  intros Ht Hne Hu Hr Htimers.
  cbn [AutoSync.step fst snd]. unfold exec.
  rewrite (changeListener_run st _ tmp original range Ht Hne Hu Hr).
  cbn [fst snd nextTimer timers now log buffers withBuffers withLog withTimers].
  assert (Hts : match AutoSync.syncTimer st with
                | Some t0 => List.filter (fun tm => negb (timerId tm =? t0)%nat) (timers w)
                | None => timers w
                end = []).
  { destruct Htimers as [Hnil|(id & d & Hid & Hone)].
    - rewrite Hnil. now destruct (AutoSync.syncTimer st).
    - rewrite Hid, Hone. cbn. now rewrite Nat.eqb_refl. }
  rewrite Hts. split.
  - unfold pendingSync. cbn. repeat split; try assumption.
    + apply lookup_insert_eq.
    + exists (nextTimer w). split; reflexivity.
  - rewrite writeBacks_app. cbn. rewrite app_nil_r.
    destruct (AutoSync.syncTimer st); [|reflexivity].
    rewrite writeBacks_app. cbn. apply app_nil_r.
Qed.

Lemma short_pause_keeps_timer `{Host} sw tmp original range indent t g :
  pendingSync tmp original range indent t sw -> (g < 300)%nat ->
  exists st' w' id,
    AutoSync.step sw (AutoSync.Elapse g) = (st', w')
    /\ AutoSync.tempFilePath st' = Some tmp
    /\ AutoSync.activeOriginalUri st' = Some original
    /\ AutoSync.activeRange st' = Some range
    /\ AutoSync.baseIndent st' = indent
    /\ AutoSync.syncTimer st' = Some id
    /\ timers w' = [mkTimer id (now (snd sw) + 300) tmp]
    /\ log w' = log (snd sw).
Proof.
  intros (Ht & Hu & Hr & Hi & Hb & id & Hid & Htm) Hg.
  destruct sw as [st w]. cbn [fst snd] in *.
  exists st, (withTimers (withNow w (now w + g)) (timers w) (nextTimer w)), id.
  assert (Hle : (now w + 300 <=? now w + g)%nat = false) by (apply Nat.leb_gt; lia).
  cbn [AutoSync.step fst snd]. rewrite Htm. cbn. rewrite Hle.
  cbn. repeat split; try assumption; reflexivity.
Qed.

Lemma last_cons_default {A} (y x : A) xs d :
  List.last (y :: x :: xs) d = List.last (x :: xs) y.
Proof.
  change (List.last (y :: x :: xs) d) with (List.last (x :: xs) d).
  revert x. induction xs as [|z xs IH]; intros x; [reflexivity|].
  change (List.last (z :: xs) d = List.last (z :: xs) y). apply IH.
Qed.

Lemma burst_keeps_one_timer `{Host} rest :
  forall sw tmp original range indent t,
    tmp <> [] ->
    pendingSync tmp original range indent t sw ->
    Forall (fun gt => (fst gt < 300)%nat) rest ->
    let sw' := AutoSync.runEvents sw
                 (flat_map (fun gt => [AutoSync.Elapse (fst gt); AutoSync.UserEdit tmp (snd gt)]) rest) in
    pendingSync tmp original range indent (List.last (map snd rest) t) sw'
    /\ writeBacks (log (snd sw')) = writeBacks (log (snd sw)).
Proof.
  induction rest as [|[g t1] rest IH]; intros sw tmp original range indent t Hne Hp Hall.
  - split; [exact Hp | reflexivity].
  - apply Forall_cons in Hall as [Hg Hall]. cbn [fst snd] in Hg.
    destruct (short_pause_keeps_timer sw tmp original range indent t g Hp Hg)
      as (st1 & w1 & id & Hstep & Ht & Hu & Hr & Hi & Hid & Htm & Hlog).
    cbn [flat_map app AutoSync.runEvents fold_left fst snd].
    rewrite Hstep.
    destruct (edit_starts_timer st1 w1 tmp original range t1 Ht Hne Hu Hr) as [Hp1 Hwb1].
    { right. eauto. }
    rewrite Hi in Hp1.
    destruct (IH _ tmp original range indent t1 Hne Hp1 Hall) as [Hp2 Hwb2].
    unfold AutoSync.runEvents in Hp2, Hwb2. split.
    + replace (List.last (map snd ((g, t1) :: rest)) t)
        with (List.last (map snd rest) t1); [exact Hp2|].
      cbn [map snd]. destruct (map snd rest) as [|x xs]; [reflexivity|].
      symmetry. apply last_cons_default.
    + rewrite Hwb2, Hwb1, Hlog. reflexivity.
Qed.

Lemma long_pause_fires `{Host} sw tmp original range indent t d :
  pendingSync tmp original range indent t sw -> (300 <= d)%nat ->
  writeBacks (log (snd (AutoSync.step sw (AutoSync.Elapse d))))
    = writeBacks (log (snd sw)) ++ [(original, range, addIndent t indent)]
  /\ timers (snd (AutoSync.step sw (AutoSync.Elapse d))) = [].
Proof.
  intros (Ht & Hu & Hr & Hi & Hb & id & Hid & Htm) Hd.
  destruct sw as [st w]. cbn [fst snd] in *.
  assert (Hle : (now w + 300 <=? now w + d)%nat = true) by (apply Nat.leb_le; lia).
  cbn [AutoSync.step fst snd]. rewrite Htm.
  unfold AutoSync.isDue. cbn [List.filter deadline]. rewrite Hle.
  cbn [negb AutoSync.fire timerDoc]. unfold exec.
  rewrite (syncCallback_run st (withTimers (withNow w (now w + d)) [] (nextTimer w))
             tmp t original range Hb Hu Hr).
  rewrite Hi.
  cbn [throws applyEditResult log withLog withTimers withNow].
  destruct (throws w (ApplyEdit original range (addIndent t indent))),
           (applyEditResult w original range (addIndent t indent));
    cbn [fst snd log withLog withTimers withNow timers];
    (split; [rewrite writeBacks_app; reflexivity | reflexivity]).
Qed.

(** C8: edits of the detached buffer that follow one another within the
    quiet window of 300 ms lead to exactly one write-back, made once the
    window has passed after the last edit, with the content of the last
    edit.  During the burst no write-back is made and, each edit having
    cleared the timer of the one before, a single timer is pending. *)
Theorem debounce_collapses `{Host} st w tmp original range first rest d :
  AutoSync.tempFilePath st = Some tmp -> tmp <> [] ->
  AutoSync.activeOriginalUri st = Some original ->
  AutoSync.activeRange st = Some range ->
  timers w = [] ->
  Forall (fun gt => (fst gt < 300)%nat) rest ->
  (300 <= d)%nat ->
  let sw1 := AutoSync.runEvents (st, w) (burst tmp first rest) in
  let sw2 := AutoSync.runEvents (st, w) (burst tmp first rest ++ [AutoSync.Elapse d]) in
  writeBacks (log (snd sw1)) = writeBacks (log w)
  /\ (exists id, AutoSync.syncTimer (fst sw1) = Some id
        /\ timers (snd sw1) = [mkTimer id (now (snd sw1) + 300) tmp])
  /\ writeBacks (log (snd sw2))
     = writeBacks (log w)
         ++ [(original, range, addIndent (lastEdit first rest) (AutoSync.baseIndent st))]
  /\ timers (snd sw2) = [].
Proof.
  intros Ht Hne Hu Hr Htm Hall Hd sw1 sw2.
  destruct (edit_starts_timer st w tmp original range first Ht Hne Hu Hr (or_introl Htm))
    as [Hp0 Hwb0].
  destruct (burst_keeps_one_timer rest _ tmp original range _ first Hne Hp0 Hall)
    as [Hp1 Hwb1].
  assert (Hsw1 : sw1 = AutoSync.runEvents (AutoSync.step (st, w) (AutoSync.UserEdit tmp first))
                   (flat_map (fun gt => [AutoSync.Elapse (fst gt); AutoSync.UserEdit tmp (snd gt)]) rest))
    by reflexivity.
  assert (Hsw2 : sw2 = AutoSync.step sw1 (AutoSync.Elapse d)).
  { subst sw1 sw2. unfold AutoSync.runEvents. now rewrite fold_left_app. }
  rewrite <- Hsw1 in Hp1, Hwb1.
  destruct (long_pause_fires sw1 tmp original range _ _ d Hp1 Hd) as [Hwb2 Htm2].
  rewrite <- Hsw2 in Hwb2, Htm2.
  split; [congruence|]. split.
  - destruct Hp1 as (_ & _ & _ & _ & _ & id & Hid & Hone). eauto.
  - split; [|exact Htm2]. rewrite Hwb2, Hwb1, Hwb0. reflexivity.
Qed.

Lemma debounce_collapses_witness :
  writeBacks (log (snd (AutoSync.runEvents (H := plainHost) (narrowedAuto, narrowWindowWorld)
     (burst tmpPath (js "foo();\nb") [(100%nat, js "foo();\nbaz();"); (250%nat, editedText)]
        ++ [AutoSync.Elapse 300]))))
  = [(Uri_file srcPath, selectedRange, js "    foo();\n    baz();\n    qux();")].
Proof.
  assert (Hne : tmpPath <> []) by discriminate.
  assert (Hall : Forall (fun gt : nat * jsstring => (fst gt < 300)%nat)
                   [(100%nat, js "foo();\nbaz();"); (250%nat, editedText)])
    by (repeat constructor; cbn; lia).
  exact (proj1 (proj2 (proj2
    (debounce_collapses (H := plainHost) narrowedAuto narrowWindowWorld tmpPath (Uri_file srcPath)
       selectedRange (js "foo();\nb") [(100%nat, js "foo();\nbaz();"); (250%nat, editedText)]
       300%nat eq_refl Hne eq_refl eq_refl eq_refl Hall (le_n 300))))).
Defined.

(** ** Running a handler step by step *)

Section Steps.
Context {S : Type}.
Implicit Types (s : S) (w : World).

Lemma bind_ok {A B} (m : M S A) (f : A -> M S B) sw a sw' :
  m sw = (Some a, sw') -> (m ≫= f) sw = f a sw'.
Proof. intros E. unfold mbind, M_bind. now rewrite E. Qed.

Lemma bind_throw {A B} (m : M S A) (f : A -> M S B) sw sw' :
  m sw = (None, sw') -> (m ≫= f) sw = (None, sw').
Proof. intros E. unfold mbind, M_bind. now rewrite E. Qed.

Lemma mret_run {A} (a : A) (sw : S * World) : (mret a : M S A) sw = (Some a, sw).
Proof. reflexivity. Qed.

Lemma getState_run s w : getState (s, w) = (Some s, (s, w)).
Proof. reflexivity. Qed.

Lemma putState_run s s' w : putState s' (s, w) = (Some tt, (s', w)).
Proof. reflexivity. Qed.

Lemma getWorld_run s w : getWorld (s, w) = (Some w, (s, w)).
Proof. reflexivity. Qed.

Lemma emit_run c s w : emit c (s, w) = (Some tt, (s, withLog w (log w ++ [c]))).
Proof. reflexivity. Qed.

Lemma invoke_ok c s w :
  throws w c = false -> invoke c (s, w) = (Some tt, (s, withLog w (log w ++ [c]))).
Proof. intros E. unfold invoke. run_handler. cbn. now rewrite E. Qed.

Lemma invoke_throw c s w :
  throws w c = true -> invoke (S := S) c (s, w) = (None, (s, withLog w (log w ++ [c]))).
Proof. intros E. unfold invoke. run_handler. cbn. now rewrite E. Qed.

Lemma applyEdit_ok u r t s w :
  throws w (ApplyEdit u r t) = false ->
  applyEdit u r t (s, w)
  = (Some (applyEditResult w u r t), (s, withLog w (log w ++ [ApplyEdit u r t]))).
Proof. intros E. unfold applyEdit. now rewrite (bind_ok _ _ _ _ _ (invoke_ok _ _ _ E)). Qed.

Lemma existsSync_run p s w :
  existsSync p (s, w)
  = (Some (bool_decide (is_Some (files w !! p))), (s, withLog w (log w ++ [ExistsSync p]))).
Proof. reflexivity. Qed.

Lemma unlinkSync_ok p t s w :
  throws w (UnlinkSync p) = false -> files w !! p = Some t ->
  unlinkSync p (s, w)
  = (Some tt, (s, withFiles (withLog w (log w ++ [UnlinkSync p])) (delete p (files w)))).
Proof.
  intros E Hf. unfold unlinkSync. rewrite (bind_ok _ _ _ _ _ (invoke_ok _ _ _ E)).
  rewrite (bind_ok _ _ _ _ _ (getWorld_run _ _)). cbn [files withLog]. now rewrite Hf.
Qed.

Lemma unlinkSync_throw p s w :
  throws w (UnlinkSync p) = true ->
  unlinkSync (S := S) p (s, w) = (None, (s, withLog w (log w ++ [UnlinkSync p]))).
Proof.
  intros E. unfold unlinkSync. now rewrite (bind_throw _ _ _ _ (invoke_throw _ _ _ E)).
Qed.

Lemma openTextDocument_ok `{Host} u t s w :
  throws w (OpenTextDocument u) = false -> contentOf w (fsPath u) = Some t ->
  openTextDocument u (s, w)
  = (Some (mkTextDocument u (fsPath u) (languageOf (fsPath u)) t),
     (s, withLog w (log w ++ [OpenTextDocument u]))).
Proof.
  intros E Hc. unfold openTextDocument. rewrite (bind_ok _ _ _ _ _ (invoke_ok _ _ _ E)).
  rewrite (bind_ok _ _ _ _ _ (getWorld_run _ _)).
  change (contentOf (withLog w (log w ++ [OpenTextDocument u])) (fsPath u))
    with (contentOf w (fsPath u)).
  now rewrite Hc.
Qed.
End Steps.

Tactic Notation "mstep" uconstr(lem) :=
  erewrite bind_ok; [| eapply lem]; cbv beta.
Tactic Notation "mstep" uconstr(lem) "by" tactic(tac) :=
  erewrite bind_ok; [| eapply lem; tac]; cbv beta.


(** ** Widen *)

Ltac wsimpl :=
  cbn [activeTextEditor visibleTextEditors buffers files throws applyEditResult log now
       timers nextTimer withLog withBuffers withFiles withNow withTimers].

Lemma closeNarrowWindow_run {S} (s : S) w w' tmp :
  (forall c, (forall p, c <> UnlinkSync p) -> throws w' c = false) ->
  (match findEditor tmp (visibleTextEditors w) with
   | Some tempEditor =>
       showTextDocument (document tempEditor);;
       executeCommand cmdRevertAndCloseActiveEditor
   | None => mret tt
   end) (s, w') = (Some tt, (s, withLog w' (log w' ++ closeNarrowWindow w tmp))).
Proof.
  intros Hth. unfold closeNarrowWindow.
  destruct (findEditor tmp (visibleTextEditors w)) as [ed|].
  - unfold showTextDocument, executeCommand.
    mstep invoke_ok by (apply Hth; intros p; discriminate).
    rewrite invoke_ok by (apply Hth; intros p; discriminate).
    wsimpl. rewrite <- app_assoc. reflexivity.
  - rewrite mret_run. wsimpl. rewrite app_nil_r. now destruct w'.
Qed.

Section Widen.
Context `{Host}.

Lemma Manual_widen_run st w tmp original range edited src :
  Manual.tempFilePath st = Some tmp -> tmp <> [] ->
  Manual.activeOriginalUri st = Some original ->
  Manual.activeRange st = Some range ->
  contentOf w tmp = Some edited ->
  contentOf w (fsPath original) = Some src ->
  (forall c, (forall p, c <> UnlinkSync p) -> throws w c = false) ->
  let t := addIndent edited (Manual.baseIndent st) in
  let calls := manualWidenCalls w tmp original range t in
  let cleared := Manual.mkState None None None (Manual.baseIndent st) in
  Manual.widenCommand (st, w) =
    match files w !! tmp with
    | None =>
        (Some tt, (cleared, withLog w (log w ++ calls ++ [ShowInformationMessage MsgSynced])))
    | Some _ =>
        if throws w (UnlinkSync tmp)
        then (None, (st, withLog w (log w ++ calls ++ [UnlinkSync tmp])))
        else (Some tt,
              (cleared,
               withFiles
                 (withLog w (log w ++ calls ++ [UnlinkSync tmp; ShowInformationMessage MsgSynced]))
                 (delete tmp (files w))))
    end.
Proof.
  intros Ht Hne Hu Hr Hc1 Hc2 Hth t calls cleared.
  assert (Htr : truthyString (Some tmp) = true) by (destruct tmp; [congruence | reflexivity]).
  unfold Manual.widenCommand.
  mstep getState_run. rewrite Ht, Hu, Hr, Htr.
  mstep openTextDocument_ok by (first [apply Hth; intros p; discriminate | exact Hc1]).
  cbn [getText text]. fold t.
  mstep applyEdit_ok by (apply Hth; intros p; discriminate).
  mstep getWorld_run. wsimpl.
  mstep closeNarrowWindow_run by exact Hth.
  wsimpl.
  mstep openTextDocument_ok by (first [apply Hth; intros p; discriminate | exact Hc2]).
  unfold showTextDocument. cbn [uri].
  mstep invoke_ok by (apply Hth; intros p; discriminate).
  rewrite Manual_newEndPos_spec. cbn [liftOption].
  mstep mret_run. rewrite newRange_remap. cbn [start end_].
  mstep emit_run. mstep emit_run. mstep existsSync_run. wsimpl.
  destruct (files w !! tmp) as [content|] eqn:Hf.
  - rewrite bool_decide_eq_true_2 by eauto. cbn [when].
    destruct (throws w (UnlinkSync tmp)) eqn:Hun.
    + erewrite bind_throw; [|apply unlinkSync_throw; exact Hun].
      wsimpl. unfold calls, manualWidenCalls. rewrite <- !app_assoc. reflexivity.
    + mstep unlinkSync_ok by (first [exact Hun | exact Hf]).
      mstep putState_run. rewrite emit_run. wsimpl.
      unfold calls, manualWidenCalls. rewrite <- !app_assoc. reflexivity.
  - rewrite bool_decide_eq_false_2 by (intros [? ?]; congruence). cbn [when].
    mstep mret_run. mstep putState_run. rewrite emit_run. wsimpl.
    unfold calls, manualWidenCalls. rewrite <- !app_assoc. reflexivity.
Qed.

Lemma modify_run f st w : AutoSync.modify f (st, w) = (Some tt, (f st, w)).
Proof. reflexivity. Qed.

Lemma AutoSync_widen_run st w tmp original src :
  AutoSync.tempFilePath st = Some tmp -> tmp <> [] ->
  AutoSync.activeOriginalUri st = Some original ->
  contentOf w (fsPath original) = Some src ->
  (forall c, (forall p, c <> UnlinkSync p) -> throws w c = false) ->
  let calls := autoWidenCalls w tmp original (AutoSync.activeRange st) in
  let cleared := AutoSync.withSession st None None None in
  AutoSync.widenCommand (st, w) =
    match files w !! tmp with
    | None => (Some tt, (cleared, withLog w (log w ++ calls)))
    | Some _ =>
        if throws w (UnlinkSync tmp)
        then (None, (st, withLog w (log w ++ calls ++ [UnlinkSync tmp])))
        else (Some tt,
              (cleared,
               withFiles (withLog w (log w ++ calls ++ [UnlinkSync tmp]))
                 (delete tmp (files w))))
    end.
Proof.
  intros Ht Hne Hu Hc2 Hth calls cleared.
  assert (Htr : truthyString (Some tmp) = true) by (destruct tmp; [congruence | reflexivity]).
  unfold AutoSync.widenCommand.
  mstep getState_run. rewrite Ht, Hu, Htr.
  mstep getWorld_run. cbn [fsPath Uri_file].
  mstep closeNarrowWindow_run by exact Hth.
  mstep openTextDocument_ok by (first [apply Hth; intros p; discriminate | exact Hc2]).
  unfold showTextDocument. cbn [uri].
  mstep invoke_ok by (apply Hth; intros p; discriminate).
  assert (Hsel : forall w',
    (match AutoSync.activeRange st with
     | Some range =>
         emit (SetSelection original (mkSelection (start range) (end_ range)));;
         emit (RevealRange original range)
     | None => mret tt
     end) (st, w')
    = (Some tt, (st, withLog w' (log w' ++
         match AutoSync.activeRange st with
         | Some r => [SetSelection original (mkSelection (start r) (end_ r));
                      RevealRange original r]
         | None => []
         end)))).
  { intros w'. destruct (AutoSync.activeRange st) as [r|].
    - mstep emit_run. rewrite emit_run. wsimpl. rewrite <- app_assoc. reflexivity.
    - rewrite mret_run, app_nil_r. now destruct w'. }
  mstep Hsel. mstep existsSync_run. wsimpl.
  destruct (files w !! tmp) as [content|] eqn:Hf.
  - rewrite bool_decide_eq_true_2 by eauto. cbn [when].
    destruct (throws w (UnlinkSync tmp)) eqn:Hun.
    + erewrite bind_throw; [|apply unlinkSync_throw; exact Hun].
      wsimpl. unfold calls, autoWidenCalls. rewrite <- !app_assoc. reflexivity.
    + mstep unlinkSync_ok by (first [exact Hun | exact Hf]).
      rewrite modify_run. wsimpl.
      unfold calls, autoWidenCalls. rewrite <- !app_assoc. reflexivity.
  - rewrite bool_decide_eq_false_2 by (intros [? ?]; congruence). cbn [when].
    mstep mret_run. rewrite modify_run. wsimpl.
    unfold calls, autoWidenCalls. rewrite <- !app_assoc. reflexivity.
Qed.
End Widen.

(** C7 (as amended): a widen with an active session whose host calls up to
    the deletion go through clears the session when the temporary file is
    absent or its deletion succeeds; when [fs.unlinkSync] throws, the
    handler is left before the three resets and the variables keep their
    values: the session stays narrowed.  Both variants. *)
Theorem widen_clears_unless_unlink_throws `{Host} :
  (forall (st : Manual.State) w tmp original range edited src,
     Manual.tempFilePath st = Some tmp -> tmp <> [] ->
     Manual.activeOriginalUri st = Some original ->
     Manual.activeRange st = Some range ->
     contentOf w tmp = Some edited ->
     contentOf w (fsPath original) = Some src ->
     (forall c, (forall p, c <> UnlinkSync p) -> throws w c = false) ->
     (files w !! tmp = None \/ throws w (UnlinkSync tmp) = false ->
      Manual.idle (fst (exec Manual.widenCommand (st, w))))
     /\ (is_Some (files w !! tmp) -> throws w (UnlinkSync tmp) = true ->
         fst (exec Manual.widenCommand (st, w)) = st))
  /\ (forall (st : AutoSync.State) w tmp original src,
     AutoSync.tempFilePath st = Some tmp -> tmp <> [] ->
     AutoSync.activeOriginalUri st = Some original ->
     contentOf w (fsPath original) = Some src ->
     (forall c, (forall p, c <> UnlinkSync p) -> throws w c = false) ->
     (files w !! tmp = None \/ throws w (UnlinkSync tmp) = false ->
      AutoSync.idle (fst (exec AutoSync.widenCommand (st, w))))
     /\ (is_Some (files w !! tmp) -> throws w (UnlinkSync tmp) = true ->
         fst (exec AutoSync.widenCommand (st, w)) = st)).
Proof.
  split.
  - intros st w tmp original range edited src Ht Hne Hu Hr Hc1 Hc2 Hth.
    unfold exec.
    rewrite (Manual_widen_run st w tmp original range edited src Ht Hne Hu Hr Hc1 Hc2 Hth).
    split.
    + intros [Hf|Hun].
      * rewrite Hf. repeat split.
      * rewrite Hun. destruct (files w !! tmp); repeat split.
    + intros [c Hf] Hun. rewrite Hf, Hun. reflexivity.
  - intros st w tmp original src Ht Hne Hu Hc2 Hth.
    unfold exec.
    rewrite (AutoSync_widen_run st w tmp original src Ht Hne Hu Hc2 Hth).
    split.
    + intros [Hf|Hun].
      * rewrite Hf. repeat split.
      * rewrite Hun. destruct (files w !! tmp); repeat split.
    + intros [c Hf] Hun. rewrite Hf, Hun. reflexivity.
Qed.

Lemma widen_clears_unless_unlink_throws_witness :
  Manual.idle (fst (exec (Manual.widenCommand (H := plainHost)) (narrowedManual, narrowWindowWorld)))
  /\ AutoSync.idle (fst (exec (AutoSync.widenCommand (H := plainHost)) (narrowedAuto, narrowWindowWorld))).
Proof.
  assert (Hne : tmpPath <> []) by discriminate.
  assert (Hc1 : contentOf narrowWindowWorld tmpPath = Some editedText)
    by (vm_compute; reflexivity).
  assert (Hc2 : contentOf narrowWindowWorld (fsPath (Uri_file srcPath)) = Some srcText)
    by (vm_compute; reflexivity).
  assert (Hth : forall c, (forall p, c <> UnlinkSync p) -> throws narrowWindowWorld c = false)
    by (intros c _; reflexivity).
  split.
  - exact (proj1 (proj1 (widen_clears_unless_unlink_throws (H := plainHost))
             narrowedManual narrowWindowWorld tmpPath (Uri_file srcPath) selectedRange
             editedText srcText eq_refl Hne eq_refl eq_refl Hc1 Hc2 Hth)
             (or_intror eq_refl)).
  - exact (proj1 (proj2 (widen_clears_unless_unlink_throws (H := plainHost))
             narrowedAuto narrowWindowWorld tmpPath (Uri_file srcPath)
             srcText eq_refl Hne eq_refl Hc2 Hth)
             (or_intror eq_refl)).
Defined.

(** C7 as the specification words it fails: on a host that refuses the
    deletion, [fs.unlinkSync] throws and neither variant clears the
    session. *)
Lemma widen_blocked_by_failed_deletion :
  Manual.narrowed narrowedManual = true
  /\ ~ Manual.idle (fst (exec (Manual.widenCommand (H := plainHost)) (narrowedManual, lockedWorld)))
  /\ AutoSync.narrowed narrowedAuto = true
  /\ ~ AutoSync.idle (fst (exec (AutoSync.widenCommand (H := plainHost)) (narrowedAuto, lockedWorld))).
Proof.
  split; [reflexivity|]. split.
  - intros [Hi _]. vm_compute in Hi. discriminate Hi.
  - split; [reflexivity|]. intros [Hi _]. vm_compute in Hi. discriminate Hi.
Qed.

Lemma Manual_widen_idle `{Host} indent w :
  Manual.widenCommand (Manual.mkState None None None indent, w)
  = (Some tt, (Manual.mkState None None None indent, w)).
Proof. unfold Manual.widenCommand. mstep getState_run. reflexivity. Qed.

(** C10 (as amended): in the manual variant, a widen with an active session
    in which no host call throws runs to its end whatever [applyEdit]
    resolves to: the replace-edit is requested once and its result is not
    looked at, nothing is written to a file, the temporary file is gone and
    the session is cleared, so that a further widen does nothing and the
    write-back cannot be retried.  The narrow editor is reverted and closed
    when it is among the visible editors; when it is not, no command is
    requested at all.  The variables, the file system and the calls made
    are the same for every answer of [applyEdit]. *)
Theorem manual_widen_ignores_edit_result `{Host}
    (st : Manual.State) w tmp original range edited src :
  Manual.tempFilePath st = Some tmp -> tmp <> [] ->
  Manual.activeOriginalUri st = Some original ->
  Manual.activeRange st = Some range ->
  contentOf w tmp = Some edited ->
  contentOf w (fsPath original) = Some src ->
  (forall c, throws w c = false) ->
  forall ok : Uri -> Range -> jsstring -> bool,
    let run := Manual.widenCommand (st, withFaults w (throws w) ok) in
    fst run = Some tt
    /\ Manual.idle (fst (snd run))
    /\ files (snd (snd run)) = delete tmp (files w)
    /\ files (snd (snd run)) !! tmp = None
    /\ (exists calls, log (snd (snd run)) = log w ++ calls
          /\ (forall p c, WriteFileSync p c ∉ calls)
          /\ (is_Some (findEditor tmp (visibleTextEditors w)) ->
              ExecuteCommand cmdRevertAndCloseActiveEditor ∈ calls)
          /\ (findEditor tmp (visibleTextEditors w) = None ->
              forall cmd, ExecuteCommand cmd ∉ calls)
          /\ writeBacks calls = [(original, range, addIndent edited (Manual.baseIndent st))])
    /\ fst (snd run) = fst (exec Manual.widenCommand (st, w))
    /\ log (snd (snd run)) = log (snd (exec Manual.widenCommand (st, w)))
    /\ Manual.widenCommand (snd run) = (Some tt, snd run).
Proof.
  intros Ht Hne Hu Hr Hc1 Hc2 Hth ok run.
  assert (Hth' : forall w', throws w' = throws w ->
            forall c, (forall p, c <> UnlinkSync p) -> throws w' c = false)
    by (intros w' E c _; rewrite E; apply Hth).
  subst run. unfold exec.
  rewrite (Manual_widen_run st (withFaults w (throws w) ok) tmp original range edited src
             Ht Hne Hu Hr Hc1 Hc2 (Hth' _ eq_refl)).
  rewrite (Manual_widen_run st w tmp original range edited src
             Ht Hne Hu Hr Hc1 Hc2 (Hth' _ eq_refl)).
  cbn [files throws withFaults log visibleTextEditors]. rewrite Hth.
  set (t := addIndent edited (Manual.baseIndent st)).
  assert (Hcalls : forall p c, WriteFileSync p c ∉ manualWidenCalls w tmp original range t).
  { intros p c Hin. unfold manualWidenCalls, closeNarrowWindow in Hin.
    destruct (findEditor tmp (visibleTextEditors w));
      repeat (apply elem_of_cons in Hin as [Hin|Hin]; [discriminate Hin|]);
      inversion Hin. }
  assert (Hrev : is_Some (findEditor tmp (visibleTextEditors w)) ->
            ExecuteCommand cmdRevertAndCloseActiveEditor
              ∈ manualWidenCalls w tmp original range t).
  { intros [ed Hed]. unfold manualWidenCalls, closeNarrowWindow. rewrite Hed.
    do 3 (apply elem_of_cons; right). apply elem_of_cons; left. reflexivity. }
  assert (Hnone : findEditor tmp (visibleTextEditors w) = None ->
            forall cmd, ExecuteCommand cmd ∉ manualWidenCalls w tmp original range t).
  { intros Hed cmd Hin. unfold manualWidenCalls, closeNarrowWindow in Hin. rewrite Hed in Hin.
    repeat (apply elem_of_cons in Hin as [Hin|Hin]; [discriminate Hin|]).
    inversion Hin. }
  assert (Hwb : forall l, writeBacks l = [] ->
            writeBacks (manualWidenCalls w tmp original range t ++ l) = [(original, range, t)]).
  { intros l Hl. rewrite writeBacks_app, Hl.
    unfold manualWidenCalls, closeNarrowWindow.
    destruct (findEditor tmp (visibleTextEditors w)); reflexivity. }
  change (manualWidenCalls (withFaults w (throws w) ok) tmp original range t)
    with (manualWidenCalls w tmp original range t).
  assert (Hlog : forall l, writeBacks l = [] ->
            (forall c, c ∈ l -> (forall p x, c <> WriteFileSync p x)
                                /\ (forall cmd, c <> ExecuteCommand cmd)) ->
            exists calls, log w ++ manualWidenCalls w tmp original range t ++ l = log w ++ calls
              /\ (forall p c, WriteFileSync p c ∉ calls)
              /\ (is_Some (findEditor tmp (visibleTextEditors w)) ->
                  ExecuteCommand cmdRevertAndCloseActiveEditor ∈ calls)
              /\ (findEditor tmp (visibleTextEditors w) = None ->
                  forall cmd, ExecuteCommand cmd ∉ calls)
              /\ writeBacks calls = [(original, range, t)]).
  { intros l Hl Hq. eexists. split; [reflexivity|]. split; [|split; [|split]].
    - intros p c Hin. apply elem_of_app in Hin as [Hin|Hin]; [now apply (Hcalls p c)|].
      now apply (proj1 (Hq _ Hin) p c).
    - intros Hed. apply elem_of_app; left. now apply Hrev.
    - intros Hed cmd Hin. apply elem_of_app in Hin as [Hin|Hin]; [now apply (Hnone Hed cmd)|].
      now apply (proj2 (Hq _ Hin) cmd).
    - now apply Hwb. }
  assert (Hq : forall l c, c ∈ l ->
            l = [UnlinkSync tmp; ShowInformationMessage MsgSynced]
            \/ l = [ShowInformationMessage MsgSynced] ->
            (forall p x, c <> WriteFileSync p x) /\ (forall cmd, c <> ExecuteCommand cmd)).
  { intros l c Hin [->| ->];
      repeat (apply elem_of_cons in Hin as [->|Hin]; [split; discriminate|]);
      inversion Hin. }
  destruct (files w !! tmp) as [content|] eqn:Hf; cbn [fst snd files log withLog withFiles].
  - split; [reflexivity|]. split; [repeat split|]. split; [reflexivity|].
    split; [apply lookup_delete_eq|]. split.
    { apply Hlog; [reflexivity|]. intros c Hc. apply (Hq _ c Hc). now left. }
    split; [reflexivity|]. split; [reflexivity|]. apply Manual_widen_idle.
  - split; [reflexivity|]. split; [repeat split|].
    split; [symmetry; now apply delete_id|]. split; [exact Hf|]. split.
    { apply Hlog; [reflexivity|]. intros c Hc. apply (Hq _ c Hc). now right. }
    split; [reflexivity|]. split; [reflexivity|]. apply Manual_widen_idle.
Qed.

Lemma manual_widen_ignores_edit_result_witness :
  Manual.idle
    (fst (snd (Manual.widenCommand (H := plainHost)
                 (narrowedManual,
                  withFaults narrowWindowWorld (throws narrowWindowWorld)
                    (fun _ _ _ => false))))).
Proof.
  assert (Hne : tmpPath <> []) by discriminate.
  assert (Hc1 : contentOf narrowWindowWorld tmpPath = Some editedText)
    by (vm_compute; reflexivity).
  assert (Hc2 : contentOf narrowWindowWorld (fsPath (Uri_file srcPath)) = Some srcText)
    by (vm_compute; reflexivity).
  exact (proj1 (proj2
    (manual_widen_ignores_edit_result (H := plainHost) narrowedManual narrowWindowWorld
       tmpPath (Uri_file srcPath) selectedRange editedText srcText
       eq_refl Hne eq_refl eq_refl Hc1 Hc2 (fun c => eq_refl) (fun _ _ _ => false)))).
Defined.

(** C10 as stated fails: with the narrow document in a background tab and
    the edit rejected, the widen of the manual variant runs to its end
    without a single [executeCommand]: the narrow editor is not among the
    visible editors, so nothing is reverted or closed, and the detached
    buffer is not discarded; it still holds the edited text. *)
Lemma manual_widen_keeps_hidden_buffer :
  Manual.narrowed narrowedManual = true
  /\ applyEditResult backgroundWorld (Uri_file srcPath) selectedRange
       (addIndent editedText (Manual.baseIndent narrowedManual)) = false
  /\ (forall c, throws backgroundWorld c = false)
  /\ fst (Manual.widenCommand (H := plainHost) (narrowedManual, backgroundWorld)) = Some tt
  /\ (forall cmd,
        ExecuteCommand cmd
          ∉ log (snd (exec (Manual.widenCommand (H := plainHost))
                        (narrowedManual, backgroundWorld))))
  /\ buffers (snd (exec (Manual.widenCommand (H := plainHost))
                     (narrowedManual, backgroundWorld))) !! tmpPath
     = Some editedText.
Proof.
  split; [reflexivity|]. split; [reflexivity|]. split; [reflexivity|].
  split; [vm_compute; reflexivity|]. split.
  - intros cmd Hin. apply list_elem_of_In in Hin. vm_compute in Hin.
    repeat (destruct Hin as [Hin|Hin]; [discriminate Hin|]). exact Hin.
  - vm_compute. reflexivity.
Qed.

(** The hypothesis that no host call throws cannot be dropped: on a host
    that rejects the edit and refuses the deletion, the widen of the manual
    variant ends at [fs.unlinkSync]; the temporary file is still there and
    the session is not cleared. *)
Lemma manual_widen_stuck_when_deletion_throws :
  applyEditResult lockedWorld (Uri_file srcPath) selectedRange
    (addIndent editedText (Manual.baseIndent narrowedManual)) = false
  /\ ~ Manual.idle
       (fst (exec (Manual.widenCommand (H := plainHost)) (narrowedManual, lockedWorld)))
  /\ files (snd (exec (Manual.widenCommand (H := plainHost)) (narrowedManual, lockedWorld)))
       !! tmpPath <> None.
Proof.
  split; [reflexivity|]. split.
  - intros [Hi _]. vm_compute in Hi. discriminate Hi.
  - vm_compute. discriminate.
Qed.

(** ** A second narrow *)

(** In the manual variant the guard at the head of the narrow command
    rejects a second narrow: a warning is shown and nothing else happens. *)
Lemma Manual_second_narrow_rejected `{Host} (st : Manual.State) w :
  truthyString (Manual.tempFilePath st) = true ->
  Manual.narrowCommand (st, w)
  = (Some tt, (st, withLog w (log w ++ [ShowWarningMessage MsgAlreadyNarrowed]))).
Proof.
  intros Ht. unfold Manual.narrowCommand.
  mstep getState_run. rewrite Ht. apply emit_run.
Qed.

(** C4: a second narrow while a session is active.  The manual variant
    leaves the session as it is.  The auto-sync variant has no guard: with
    the narrow window in front and a selection in it, the second narrow
    replaces the tracked range, the base indent, the temporary file path
    and the source document of the session. *)
Theorem second_narrow_overwrites_session :
  Manual.narrowed narrowedManual = true
  /\ fst (exec (Manual.narrowCommand (H := plainHost)) (narrowedManual, narrowWindowWorld))
     = narrowedManual
  /\ AutoSync.narrowed narrowedAuto = true
  /\ AutoSync.activeRange narrowedAuto = Some (mkRange (mkPosition 1 0) (mkPosition 2 10))
  /\ AutoSync.baseIndent narrowedAuto = js "    "
  /\ AutoSync.tempFilePath narrowedAuto = Some (js "/proj/.narrow.a.js")
  /\ let st' := fst (exec (AutoSync.narrowCommand (H := plainHost))
                       (narrowedAuto, narrowWindowWorld)) in
     AutoSync.activeRange st' = Some (mkRange (mkPosition 1 0) (mkPosition 1 6))
     /\ AutoSync.baseIndent st' = []
     /\ AutoSync.tempFilePath st' = Some (js "/proj/.narrow..narrow.a.js")
     /\ AutoSync.activeOriginalUri st' = Some (Uri_file (js "/proj/.narrow.a.js")).
Proof.
  vm_compute. repeat split; reflexivity.
Qed.

(** * Further properties of the transform *)

Lemma removeIndent_lines T I :
  noCRBeforeBreak T = true ->
  splitLines (removeIndent T I) = map (removeIndentLine I) (splitLines T).
Proof.
  intros Hcr. unfold removeIndent. destruct I as [|c I]; simpl falsy; cbv iota.
  - rewrite <- (map_id (splitLines T)) at 1. apply map_ext. intros l.
    unfold removeIndentLine, substringFrom. simpl. now rewrite drop_0.
  - set (J := c :: I).
    apply splitLines_joinLF.
    + pose proof (splitLines_not_nil T). destruct (splitLines T); [congruence | discriminate].
    + intros s Hs. apply list_elem_of_fmap in Hs as (l & -> & Hl).
      pose proof (splitLines_no_LF T l Hl) as Hlf.
      unfold removeIndentLine, substringFrom. destruct (startsWith l J); [|exact Hlf].
      intros Hin. apply Hlf. rewrite <- (take_drop (length J) l).
      apply elem_of_app; now right.
    + rewrite removelast_map. apply forallb_noCR_map; [|exact Hcr].
      apply endsWithCR_removeIndentLine.
Qed.

Lemma addIndent_lines T I :
  noCRBeforeBreak T = true -> LF ∉ I ->
  splitLines (addIndent T I) = map (addIndentLine I) (splitLines T).
Proof.
  intros Hcr HI. unfold addIndent. destruct I as [|c I]; simpl falsy; cbv iota.
  - rewrite <- (map_id (splitLines T)) at 1. apply map_ext. intros l.
    unfold addIndentLine. now destruct l.
  - set (J := c :: I) in *.
    apply splitLines_joinLF.
    + pose proof (splitLines_not_nil T). destruct (splitLines T); [congruence | discriminate].
    + intros s Hs. apply list_elem_of_fmap in Hs as (l & -> & Hl).
      pose proof (splitLines_no_LF T l Hl) as Hlf.
      unfold addIndentLine. destruct (0 <? length l)%nat; [|exact Hlf].
      intros Hin. apply elem_of_app in Hin as [Hin|Hin]; auto.
    + rewrite removelast_map. apply forallb_noCR_map; [|exact Hcr].
      apply endsWithCR_addIndentLine.
Qed.

Lemma noCRBeforeBreak_addIndent T I :
  noCRBeforeBreak T = true -> LF ∉ I -> noCRBeforeBreak (addIndent T I) = true.
Proof.
  intros Hcr HI. unfold noCRBeforeBreak. rewrite (addIndent_lines T I Hcr HI).
  rewrite removelast_map. apply forallb_noCR_map; [|exact Hcr].
  apply endsWithCR_addIndentLine.
Qed.

Lemma removeIndentLine_addIndentLine I l :
  removeIndentLine I (addIndentLine I l) = l.
Proof.
  unfold addIndentLine. destruct l as [|c l]; simpl.
  - unfold removeIndentLine, substringFrom. destruct (startsWith [] I); [apply drop_nil | reflexivity].
  - unfold removeIndentLine, substringFrom.
    rewrite (proj2 (startsWith_prefix (I ++ c :: l) I)) by (now exists (c :: l)).
    apply drop_app_length.
Qed.

(** X1: what the sync writes back, taken through [removeIndent] again with
    the same indent, has the lines of the buffer: de-indenting undoes
    re-indenting line by line, for a text in which no line but the last
    ends in a carriage return and an indent without line feed. *)
Theorem removeIndent_undoes_addIndent (T I : jsstring) :
  noCRBeforeBreak T = true -> LF ∉ I ->
  splitLines (removeIndent (addIndent T I) I) = splitLines T.
Proof.
  intros Hcr HI.
  rewrite (removeIndent_lines _ I (noCRBeforeBreak_addIndent T I Hcr HI)).
  rewrite (addIndent_lines T I Hcr HI), map_map.
  rewrite <- (map_id (splitLines T)) at 2. apply map_ext. intros l.
  apply removeIndentLine_addIndentLine.
Qed.

Lemma removeIndent_undoes_addIndent_witness :
  splitLines (removeIndent (addIndent (js "foo();\r\n\n  bar();") (js "\t ")) (js "\t "))
  = splitLines (js "foo();\r\n\n  bar();").
Proof.
  apply removeIndent_undoes_addIndent; [reflexivity|].
  intros Hin. apply list_elem_of_In in Hin. vm_compute in Hin.
  destruct Hin as [Hin|[Hin|[]]]; discriminate Hin.
Defined.

(** X2: the text [addIndent] returns has as many lines as its input; an
    empty line stays empty (no trailing whitespace is added) and every
    other line comes back with the indent in front. *)
Theorem addIndent_by_lines (T I : jsstring) :
  noCRBeforeBreak T = true -> LF ∉ I ->
  length (splitLines (addIndent T I)) = length (splitLines T)
  /\ forall i l, splitLines T !! i = Some l ->
       splitLines (addIndent T I) !! i = Some (match l with [] => [] | _ => I ++ l end).
Proof.
  intros Hcr HI. rewrite (addIndent_lines T I Hcr HI). split; [apply length_map|].
  intros i l Hl. rewrite list_lookup_fmap, Hl. simpl. f_equal.
  unfold addIndentLine. now destruct l.
Qed.

Lemma addIndent_by_lines_witness :
  length (splitLines (addIndent (js "a\n\nb") (js "  "))) = length (splitLines (js "a\n\nb")).
Proof.
  refine (proj1 (addIndent_by_lines (js "a\n\nb") (js "  ") eq_refl _)).
  intros Hin. apply list_elem_of_In in Hin. vm_compute in Hin.
  destruct Hin as [Hin|[Hin|[]]]; discriminate Hin.
Defined.

Lemma prefix_all_whitespace p l :
  p `prefix_of` leadingWhitespace l -> forall c, c ∈ p -> isWhiteSpace c = true.
Proof.
  intros [k Hk] c Hc. apply (takeWhile_all isWhiteSpace l).
  unfold leadingWhitespace in Hk. rewrite Hk. apply elem_of_app; now left.
Qed.

(** X3: the common indent is made of whitespace only and holds neither a
    line feed nor, for a text with a non-blank line, more code units than
    the leading whitespace of any non-blank line. *)
Theorem getCommonIndent_is_whitespace (T : jsstring) :
  (forall c, c ∈ getCommonIndent T -> isWhiteSpace c = true /\ c <> LF)
  /\ (forall l, l ∈ splitLines T -> nonBlank l = true ->
        (length (getCommonIndent T) <= length (leadingWhitespace l))%nat
        /\ (length (getCommonIndent T) < length l)%nat).
Proof.
  split.
  - intros c Hc. split.
    + rewrite getCommonIndent_unfold in Hc.
      destruct (List.filter nonBlank (splitLines T)) as [|l ls]; [inversion Hc|].
      destruct (fold_reducer_prefix (map leadingWhitespace ls) (leadingWhitespace l)) as [Hp _].
      now apply (prefix_all_whitespace _ l Hp).
    + intros ->. now apply (getCommonIndent_no_LF T).
  - intros l Hl Hn. pose proof (getCommonIndent_prefix T l Hl Hn) as Hp. split.
    + now apply prefix_length.
    + destruct (getCommonIndent_line_prefix T l Hl Hn) as [[k Hk] Hne].
      rewrite Hk, length_app. destruct k; [|simpl; lia].
      rewrite app_nil_r in Hk. congruence.
Qed.

Lemma getCommonIndent_is_whitespace_witness :
  (length (getCommonIndent (js "\t a\n\t  b")) < length (js "\t  b"))%nat.
Proof.
  refine (proj2 (proj2 (getCommonIndent_is_whitespace (js "\t a\n\t  b")) (js "\t  b") _ eq_refl)).
  apply list_elem_of_In. vm_compute. right; left; reflexivity.
Defined.

Lemma takeWhile_app_all p a b :
  (forall c, c ∈ a -> p c = true) -> takeWhile p (a ++ b) = a ++ takeWhile p b.
Proof.
  induction a as [|x a IH]; intros Ha; [reflexivity|]. simpl.
  rewrite (Ha x) by (now apply elem_of_cons; left).
  f_equal. apply IH. intros c Hc. apply Ha. now apply elem_of_cons; right.
Qed.

Lemma nonBlank_app_whitespace a b :
  (forall c, c ∈ a -> isWhiteSpace c = true) -> nonBlank (a ++ b) = nonBlank b.
Proof.
  intros Ha. destruct (nonBlank b) eqn:Hb.
  - apply nonBlank_true in Hb as (c & Hc & Hw). apply nonBlank_true.
    exists c. split; [apply elem_of_app; now right | exact Hw].
  - apply nonBlank_false in Hb. apply nonBlank_false.
    intros c Hc. apply elem_of_app in Hc as [Hc|Hc]; auto.
Qed.

(** X4: the text narrow writes to the temporary file has no common indent
    left: [getCommonIndent] of [removeIndent T (getCommonIndent T)] is the
    empty string (for a text in which no line but the last ends in a
    carriage return). *)
Theorem no_common_indent_after_removeIndent (T : jsstring) :
  noCRBeforeBreak T = true ->
  getCommonIndent (removeIndent T (getCommonIndent T)) = [].
Proof.
  intros Hcr. destruct (getCommonIndent T) as [|c0 I0] eqn:HI; [exact HI|].
  rewrite <- HI. set (I := getCommonIndent T) in *.
  set (T' := removeIndent T I).
  assert (Hex : exists l, l ∈ splitLines T /\ nonBlank l = true).
  { subst I. rewrite getCommonIndent_unfold in HI.
    destruct (List.filter nonBlank (splitLines T)) as [|l ls] eqn:Hf; [discriminate|].
    exists l. apply elem_of_filter_nonBlank. rewrite Hf. now apply elem_of_cons; left. }
  assert (Hws : forall c, c ∈ I -> isWhiteSpace c = true).
  { destruct Hex as (l & Hl & Hn).
    apply (prefix_all_whitespace I l). now apply getCommonIndent_prefix. }
  assert (Hlines : splitLines T' = map (removeIndentLine I) (splitLines T))
    by now apply removeIndent_lines.
  assert (Hpre : (I ++ getCommonIndent T') `prefix_of` I).
  { apply (getCommonIndent_greatest T _ Hex). intros l Hl Hn.
    destruct (getCommonIndent_line_prefix T l Hl Hn) as [[k Hk] _]. fold I in Hk.
    assert (Hstrip : removeIndentLine I l = k).
    { unfold removeIndentLine, substringFrom.
      rewrite (proj2 (startsWith_prefix l I)) by (now exists k).
      rewrite Hk. apply drop_app_length. }
    assert (Hk' : k ∈ splitLines T').
    { rewrite Hlines, <- Hstrip. now apply list_elem_of_fmap_2. }
    assert (Hnk : nonBlank k = true).
    { rewrite <- (nonBlank_app_whitespace I k Hws), <- Hk. exact Hn. }
    pose proof (getCommonIndent_prefix T' k Hk' Hnk) as Hp.
    unfold leadingWhitespace. rewrite Hk, (takeWhile_app_all _ I k Hws).
    now apply prefix_app. }
  apply prefix_length in Hpre. rewrite length_app in Hpre.
  destruct (getCommonIndent T'); [reflexivity | simpl in Hpre; lia].
Qed.

Lemma no_common_indent_after_removeIndent_witness :
  getCommonIndent (removeIndent (js "    foo();\r\n      bar();")
                     (getCommonIndent (js "    foo();\r\n      bar();"))) = [].
Proof. exact (no_common_indent_after_removeIndent (js "    foo();\r\n      bar();") eq_refl). Defined.

Lemma splitOnLF_length t :
  length (splitOnLF t) = Datatypes.S (length (List.filter (fun c => c =? LF) t)).
Proof.
  induction t as [|c t IH]; [reflexivity|]. simpl.
  destruct (c =? LF); simpl; [now rewrite IH|].
  rewrite consFirst_length by apply splitOnLF_not_nil. exact IH.
Qed.

(** X5: the end position both variants compute after a write-back always
    exists (no index leaves the array of lines), lies in the line
    [start.line + number of line feeds of the text], and is never before
    the start, so that [new Range(start, end)] keeps [start] as its start. *)
Theorem newEndPos_after_start (rangeStart : Position) (textToRestore : jsstring) :
  exists e,
    AutoSync.newEndPos rangeStart textToRestore = Some e
    /\ Manual.newEndPos rangeStart textToRestore = Some e
    /\ line e = (line rangeStart
                 + length (List.filter (fun c => (c =? LF)%N) textToRestore))%nat
    /\ isBefore e rangeStart = false
    /\ newRange rangeStart e = mkRange rangeStart e.
Proof.
  exists (remapRangeEnd_spec rangeStart textToRestore).
  split; [apply AutoSync_newEndPos_spec|]. split; [apply Manual_newEndPos_spec|].
  split; [|split; [apply isBefore_remap | apply newRange_remap]].
  unfold remapRangeEnd_spec. pose proof (splitOnLF_length textToRestore) as Hlen.
  destruct (splitOnLF textToRestore) as [|a [|b l]]; simpl in *; lia.
Qed.

Lemma last_map {A B} (f : A -> B) (l : list A) (d : A) :
  l <> [] -> List.last (map f l) (f d) = f (List.last l d).
Proof.
  induction l as [|x l IH]; [congruence|]. intros _.
  destruct l as [|y l]; [reflexivity|].
  change (List.last (map f (y :: l)) (f d) = f (List.last (y :: l) d)).
  apply IH. discriminate.
Qed.

(** The end position computed for a re-indented text, read off the text
    before the indent is added. *)
Lemma newEndPos_addIndent (rangeStart : Position) (T I : jsstring) :
  noCRBeforeBreak T = true -> LF ∉ I ->
  AutoSync.newEndPos rangeStart (addIndent T I)
  = Some (mkPosition
            (line rangeStart + (length (splitLines T) - 1))
            ((if (length (splitLines T) =? 1)%nat then character rangeStart else 0)
             + match List.last (splitLines T) [] with
               | [] => 0
               | l => length I + length l
               end)).
Proof.
  intros Hcr HI. unfold AutoSync.newEndPos.
  rewrite (addIndent_lines T I Hcr HI), length_map.
  pose proof (splitLines_not_nil T) as Hne.
  assert (Hlast : map (addIndentLine I) (splitLines T) !! (length (splitLines T) - 1)%nat
                  = Some (addIndentLine I (List.last (splitLines T) []))).
  { rewrite list_lookup_fmap, (lookup_last_index _ [] Hne). reflexivity. }
  rewrite Hlast. simpl. f_equal.
  assert (Hlen : length (addIndentLine I (List.last (splitLines T) []))
                 = match List.last (splitLines T) [] with
                   | [] => 0%nat
                   | l => (length I + length l)%nat
                   end).
  { unfold addIndentLine. destruct (List.last (splitLines T) []); [reflexivity|].
    simpl Nat.ltb. cbv iota. apply length_app. }
  rewrite Hlen.
  destruct (splitLines T) as [|a [|b l]]; [congruence| |]; simpl; f_equal; lia.
Qed.

(** X6: a sync of the auto-sync variant with a session active, whose
    buffer [T] has no carriage return in front of a line break and whose
    indent holds no line feed, and whose [applyEdit] does not throw.  When
    the edit is applied, the tracked range keeps its start and its end is
    read off the buffer: it lies [number of lines - 1] lines below the
    start; its column is the length of the indent plus the length of the
    last line of the buffer, or 0 when that line is empty, counted from the
    start column when the buffer has a single line.  When the edit is
    rejected the tracked range stays as it was. *)
Theorem sync_end_from_buffer (st : AutoSync.State) (w : World) (doc T : jsstring)
    (original : Uri) (range : Range) :
  buffers w !! doc = Some T ->
  AutoSync.activeOriginalUri st = Some original ->
  AutoSync.activeRange st = Some range ->
  noCRBeforeBreak T = true -> LF ∉ AutoSync.baseIndent st ->
  throws w (ApplyEdit original range (addIndent T (AutoSync.baseIndent st))) = false ->
  AutoSync.activeRange (fst (exec (AutoSync.syncCallback doc) (st, w)))
  = if applyEditResult w original range (addIndent T (AutoSync.baseIndent st))
    then Some (mkRange (start range)
                 (mkPosition
                    (line (start range) + (length (splitLines T) - 1))
                    ((if (length (splitLines T) =? 1)%nat
                      then character (start range) else 0)
                     + match List.last (splitLines T) [] with
                       | [] => 0
                       | l => length (AutoSync.baseIndent st) + length l
                       end)))
    else Some range.
Proof.
  intros Hb Hu Hr Hcr HI Hth. unfold exec.
  rewrite (syncCallback_run st w doc T original range Hb Hu Hr). cbv zeta. rewrite Hth.
  destruct (applyEditResult w original range (addIndent T (AutoSync.baseIndent st)));
    [|exact Hr].
  cbn [fst snd]. 
  pose proof (newEndPos_addIndent (start range) T (AutoSync.baseIndent st) Hcr HI) as He.
  rewrite AutoSync_newEndPos_spec in He. injection He as He.
  destruct st; cbn in *. now rewrite He.
Qed.

Lemma sync_end_from_buffer_witness :
  AutoSync.activeRange
    (fst (exec (AutoSync.syncCallback tmpPath) (narrowedAuto, narrowWindowWorld)))
  = Some (mkRange (mkPosition 1 0) (mkPosition 3 10)).
Proof.
  assert (Hb : buffers narrowWindowWorld !! tmpPath = Some editedText)
    by (vm_compute; reflexivity).
  assert (HI : LF ∉ AutoSync.baseIndent narrowedAuto).
  { intros Hin. apply list_elem_of_In in Hin. vm_compute in Hin.
    repeat (destruct Hin as [Hin|Hin]; [discriminate Hin|]). exact Hin. }
  exact (sync_end_from_buffer narrowedAuto narrowWindowWorld tmpPath editedText
           (Uri_file srcPath) selectedRange Hb eq_refl eq_refl eq_refl HI eq_refl).
Defined.

(** * Further properties of the handlers *)

(** ** Frames *)

Section Frames.
Context {S : Type} (Q : S -> S -> Prop) (P : HostCall -> Prop).
Context (Qrefl : forall s, Q s s) (Qtrans : forall a b c, Q a b -> Q b c -> Q a c).

Lemma frame_refl (sw : S * World) : frame Q P sw sw.
Proof.
  repeat split; auto. exists []. split; [now rewrite app_nil_r | constructor].
Qed.

Lemma frame_trans (a b c : S * World) : frame Q P a b -> frame Q P b c -> frame Q P a c.
Proof.
  intros (Hq1 & Ht1 & Hn1 & Hb1 & l1 & Hl1 & Hp1) (Hq2 & Ht2 & Hn2 & Hb2 & l2 & Hl2 & Hp2).
  repeat split; try congruence; [eapply Qtrans; eassumption|].
  exists (l1 ++ l2). split; [rewrite Hl2, Hl1; apply eq_sym, app_assoc | now apply Forall_app].
Qed.

Lemma frame_log (s : S) (w : World) (c : HostCall) :
  P c -> frame Q P (s, w) (s, withLog w (log w ++ [c])).
Proof.
  intros Hc. repeat split; auto. exists [c]. split; [reflexivity | now repeat constructor].
Qed.

Lemma preserves_bind {A B} (m : M S A) (f : A -> M S B) :
  preserves (frame Q P) m -> (forall a, preserves (frame Q P) (f a)) ->
  preserves (frame Q P) (m ≫= f).
Proof.
  intros Hm Hf sw. unfold mbind, M_bind. specialize (Hm sw).
  destruct (m sw) as [[a|] sw']; cbn [snd] in *; [|exact Hm].
  eapply frame_trans; [exact Hm | apply Hf].
Qed.

Lemma preserves_ret {A} (a : A) : preserves (frame Q P) (mret a : M S A).
Proof. intros sw. apply frame_refl. Qed.

Lemma preserves_throw {A} : preserves (frame Q P) (throw : M S A).
Proof. intros sw. apply frame_refl. Qed.

Lemma preserves_getState : preserves (frame Q P) (getState : M S S).
Proof. intros sw. apply frame_refl. Qed.

Lemma preserves_getWorld : preserves (frame Q P) (getWorld : M S World).
Proof. intros sw. apply frame_refl. Qed.

Lemma preserves_liftOption {A} (o : option A) : preserves (frame Q P) (liftOption o : M S A).
Proof. destruct o; [apply preserves_ret | apply preserves_throw]. Qed.

Lemma preserves_when (b : bool) (m : M S unit) :
  preserves (frame Q P) m -> preserves (frame Q P) (when b m).
Proof. destruct b; [auto | intros _; apply preserves_ret]. Qed.

Lemma preserves_putState (s' : S) : (forall s, Q s s') -> preserves (frame Q P) (putState s').
Proof.
  intros Hq [s w]. repeat split; cbn; auto.
  exists []. split; [now rewrite app_nil_r | constructor].
Qed.

Lemma preserves_emit (c : HostCall) : P c -> preserves (frame Q P) (emit c : M S unit).
Proof. intros Hc [s w]. now apply frame_log. Qed.

Lemma preserves_invoke (c : HostCall) : P c -> preserves (frame Q P) (invoke c : M S unit).
Proof.
  intros Hc [s w]. unfold invoke. run_handler. cbn [throws withLog].
  destruct (throws w c); now apply frame_log.
Qed.

Lemma preserves_writeFileSync (p t : jsstring) :
  P (WriteFileSync p t) -> preserves (frame Q P) (writeFileSync p t : M S unit).
Proof.
  intros Hc [s w]. unfold writeFileSync. run_handler. cbn [throws withLog].
  destruct (throws w (WriteFileSync p t)); [now apply frame_log|].
  repeat split; cbn; auto. exists [WriteFileSync p t].
  split; [reflexivity | now repeat constructor].
Qed.

Lemma preserves_existsSync (p : jsstring) :
  P (ExistsSync p) -> preserves (frame Q P) (existsSync p : M S bool).
Proof. intros Hc [s w]. now apply frame_log. Qed.

Lemma preserves_unlinkSync (p : jsstring) :
  P (UnlinkSync p) -> preserves (frame Q P) (unlinkSync p : M S unit).
Proof.
  intros Hc [s w]. unfold unlinkSync. run_handler. cbn [throws withLog files].
  destruct (throws w (UnlinkSync p)); [now apply frame_log|].
  cbn [files withLog].
  destruct (files w !! p); [|now apply frame_log].
  repeat split; cbn; auto. exists [UnlinkSync p].
  split; [reflexivity | now repeat constructor].
Qed.

Lemma preserves_openTextDocument `{Host} (u : Uri) :
  P (OpenTextDocument u) -> preserves (frame Q P) (openTextDocument u : M S TextDocument).
Proof.
  intros Hc [s w]. unfold openTextDocument. run_handler. cbn [throws withLog].
  destruct (throws w (OpenTextDocument u)); [now apply frame_log|].
  change (contentOf (withLog w (log w ++ [OpenTextDocument u])) (fsPath u))
    with (contentOf w (fsPath u)).
  destruct (contentOf w (fsPath u)); now apply frame_log.
Qed.

Lemma preserves_applyEdit (u : Uri) (r : Range) (t : jsstring) :
  P (ApplyEdit u r t) -> preserves (frame Q P) (applyEdit u r t : M S bool).
Proof.
  intros Hc [s w]. unfold applyEdit. run_handler. cbn [throws withLog].
  destruct (throws w (ApplyEdit u r t)); now apply frame_log.
Qed.
End Frames.

Lemma preserves_modify Q P (f : AutoSync.State -> AutoSync.State) :
  (forall s, Q s (f s)) -> preserves (frame Q P) (AutoSync.modify f).
Proof.
  intros Hq [s w]. repeat split; cbn; auto.
  exists []. split; [now rewrite app_nil_r | constructor].
Qed.

Lemma sameTimerVar_refl st : sameTimerVar st st.
Proof. reflexivity. Qed.

Lemma sameTimerVar_trans a b c : sameTimerVar a b -> sameTimerVar b c -> sameTimerVar a c.
Proof. unfold sameTimerVar. congruence. Qed.

Lemma writeBacks_quiet l l' : Forall quietCall l' -> writeBacks (l ++ l') = writeBacks l.
Proof.
  intros Hq. rewrite writeBacks_app.
  rewrite <- (app_nil_r (writeBacks l)) at 2. f_equal.
  induction Hq as [|c l' Hc _ IH]; [reflexivity|].
  destruct c; cbn in *; try exact IH; contradiction.
Qed.

Ltac frame_side :=
  try exact sameTimerVar_refl; try exact sameTimerVar_trans; try exact I.

Ltac frame_auto :=
  repeat first
    [ solve [apply preserves_ret; frame_side]
    | solve [apply preserves_throw; frame_side]
    | solve [apply preserves_getState; frame_side]
    | solve [apply preserves_getWorld; frame_side]
    | solve [apply preserves_liftOption; frame_side]
    | apply preserves_when; frame_side
    | solve [apply preserves_modify; intros ?; reflexivity]
    | solve [apply preserves_emit; frame_side]
    | solve [apply preserves_invoke; frame_side]
    | solve [apply preserves_writeFileSync; frame_side]
    | solve [apply preserves_existsSync; frame_side]
    | solve [apply preserves_unlinkSync; frame_side]
    | solve [apply preserves_openTextDocument; frame_side]
    | solve [apply preserves_applyEdit; frame_side]
    | apply preserves_bind; frame_side; [| intros ?]
    | match goal with
      | |- preserves _ (match ?x with _ => _ end) => destruct x
      end ].

Section AutoFrames.
Context `{Host}.

Lemma narrowCommand_frame :
  preserves (frame sameTimerVar quietCall) AutoSync.narrowCommand.
Proof.
  unfold AutoSync.narrowCommand, showTextDocument, executeCommand, setTextDocumentLanguage.
  cbv zeta. frame_auto.
Qed.

Lemma widenCommand_frame :
  preserves (frame sameTimerVar quietCall) AutoSync.widenCommand.
Proof.
  unfold AutoSync.widenCommand, showTextDocument, executeCommand.
  cbv zeta. frame_auto.
Qed.

Lemma syncCallback_frame doc :
  preserves (frame sameTimerVar anyCall) (AutoSync.syncCallback doc).
Proof.
  unfold AutoSync.syncCallback. cbv zeta. frame_auto.
Qed.
End AutoFrames.

(** ** The auto-sync variant under arbitrary host behaviour *)

(** X7: the narrow and the widen handler of the auto-sync variant make no
    [applyEdit], [setTimeout] or [clearTimeout] call and do not assign
    [syncTimer], whatever the host answers and wherever a call throws:
    widen neither performs a final write-back nor cancels a pending
    sync. *)
Theorem narrow_and_widen_leave_sync_alone `{Host} (st : AutoSync.State) (w : World) :
  (let sw' := exec AutoSync.widenCommand (st, w) in
   (exists calls, log (snd sw') = log w ++ calls /\ Forall quietCall calls)
   /\ writeBacks (log (snd sw')) = writeBacks (log w)
   /\ AutoSync.syncTimer (fst sw') = AutoSync.syncTimer st)
  /\ (let sw' := exec AutoSync.narrowCommand (st, w) in
      (exists calls, log (snd sw') = log w ++ calls /\ Forall quietCall calls)
      /\ writeBacks (log (snd sw')) = writeBacks (log w)
      /\ AutoSync.syncTimer (fst sw') = AutoSync.syncTimer st).
Proof.
  split; cbv zeta; unfold exec.
  - destruct (widenCommand_frame (st, w)) as (Hq & _ & _ & _ & l & Hl & Hp).
    cbn [fst snd] in *. split; [now exists l|]. rewrite Hl.
    split; [now apply writeBacks_quiet | exact Hq].
  - destruct (narrowCommand_frame (st, w)) as (Hq & _ & _ & _ & l & Hl & Hp).
    cbn [fst snd] in *. split; [now exists l|]. rewrite Hl.
    split; [now apply writeBacks_quiet | exact Hq].
Qed.

Lemma changeListener_cases st w doc :
  AutoSync.changeListener doc (st, w) =
    if listens st doc then
      (Some tt,
       (AutoSync.withTimer st (Some (nextTimer w)),
        withLog
          (withTimers w
             (match AutoSync.syncTimer st with
              | Some t => List.filter (fun tm => negb (timerId tm =? t)%nat) (timers w)
              | None => timers w
              end ++ [mkTimer (nextTimer w) (now w + 300) doc])
             (Datatypes.S (nextTimer w)))
          (match AutoSync.syncTimer st with
           | Some t => log w ++ [ClearTimeout t]
           | None => log w
           end ++ [SetTimeout (nextTimer w) 300])))
    else (Some tt, (st, w)).
Proof.
  unfold AutoSync.changeListener, listens. run_handler.
  destruct (AutoSync.tempFilePath st) as [tmp|]; [|reflexivity].
  destruct (truthyString (Some tmp) && bool_decide (doc = fsPath (Uri_file tmp))
            && defined (AutoSync.activeOriginalUri st) && defined (AutoSync.activeRange st));
    [|reflexivity].
  destruct (AutoSync.syncTimer st); reflexivity.
Qed.

Lemma listens_false st doc :
  AutoSync.narrowed st = false \/ AutoSync.tempFilePath st <> Some doc ->
  listens st doc = false.
Proof.
  unfold listens, AutoSync.narrowed. intros [Hn|Hd].
  - destruct (AutoSync.tempFilePath st) as [tmp|]; [|reflexivity].
    destruct (truthyString (Some tmp)); [|reflexivity].
    destruct (bool_decide (doc = fsPath (Uri_file tmp))); [exact Hn | reflexivity].
  - destruct (AutoSync.tempFilePath st) as [tmp|]; [|reflexivity].
    rewrite (bool_decide_eq_false_2 (doc = fsPath (Uri_file tmp))).
    + now rewrite andb_false_r.
    + cbn. congruence.
Qed.

(** X8: a change of any document is ignored by the listener of the
    auto-sync variant unless a session is active and the document is its
    temporary file: the variables, the timers and the log are left as they
    are (only the host's buffer holds the new text). *)
Theorem other_documents_are_ignored `{Host} (st : AutoSync.State) (w : World)
    (doc newText : jsstring) :
  AutoSync.narrowed st = false \/ AutoSync.tempFilePath st <> Some doc ->
  AutoSync.step (st, w) (AutoSync.UserEdit doc newText)
  = (st, withBuffers w (<[doc := newText]> (buffers w))).
Proof.
  intros Hc. cbn [AutoSync.step fst snd]. unfold exec.
  rewrite changeListener_cases, (listens_false st doc Hc). reflexivity.
Qed.

Lemma other_documents_are_ignored_witness :
  AutoSync.step (H := plainHost) (narrowedAuto, narrowWindowWorld)
    (AutoSync.UserEdit srcPath (js "x"))
  = (narrowedAuto,
     withBuffers narrowWindowWorld (<[srcPath := js "x"]> (buffers narrowWindowWorld))).
Proof.
  apply (other_documents_are_ignored (H := plainHost)).
  right. discriminate.
Defined.

Lemma fire_frame due : forall sw, frame sameTimerVar anyCall sw (AutoSync.fire due sw).
Proof.
  induction due as [|tm due IH]; intros sw; simpl.
  - apply frame_refl. exact sameTimerVar_refl.
  - eapply frame_trans; [exact sameTimerVar_trans | apply syncCallback_frame | apply IH].
Qed.

Lemma step_oneTimer `{Host} sw e : oneTimer sw -> oneTimer (AutoSync.step sw e).
Proof.
  destruct sw as [st w]. intros Hone. destruct e as [doc t|ms| |].
  - cbn [AutoSync.step fst snd]. unfold exec. rewrite changeListener_cases.
    destruct (listens st doc); [|exact Hone].
    right. exists (mkTimer (nextTimer w) (now w + 300) doc).
    cbn [fst snd timers nextTimer now withLog withTimers withBuffers AutoSync.syncTimer
         AutoSync.withTimer timerId].
    split; [|reflexivity].
    destruct Hone as [Hnil|(tm & Htm & Hid)]; cbn [fst snd] in *.
    + rewrite Hnil. now destruct (AutoSync.syncTimer st).
    + rewrite Htm, Hid. cbn. now rewrite Nat.eqb_refl.
  - cbn [AutoSync.step fst snd].
    match goal with |- oneTimer (AutoSync.fire ?d ?s) =>
      destruct (fire_frame d s) as (Hq & Ht & _)
    end.
    unfold sameTimerVar in Hq. unfold oneTimer in *.
    cbn [fst snd timers withTimers] in *. rewrite Ht, Hq.
    destruct Hone as [Hnil|(tm & Htm & Hid)].
    + rewrite Hnil. now left.
    + rewrite Htm. cbn. destruct (AutoSync.isDue (now w + ms) tm); cbn; [now left|].
      right. eauto.
  - cbn [AutoSync.step]. destruct (narrowCommand_frame (st, w)) as (Hq & Ht & _).
    unfold sameTimerVar in Hq. unfold oneTimer, exec in *. cbn [fst snd] in *.
    destruct Hone as [Hnil|(tm & Htm & Hid)]; [left; congruence|].
    right. exists tm. split; congruence.
  - cbn [AutoSync.step]. destruct (widenCommand_frame (st, w)) as (Hq & Ht & _).
    unfold sameTimerVar in Hq. unfold oneTimer, exec in *. cbn [fst snd] in *.
    destruct Hone as [Hnil|(tm & Htm & Hid)]; [left; congruence|].
    right. exists tm. split; congruence.
Qed.

(** X9: at most one debounce timer is pending at any time: started with at
    most one pending timer, the one [syncTimer] names, every sequence of
    edits, pauses, narrows and widens, with any answers of the host, ends
    with at most one pending timer, again the one [syncTimer] names. *)
Theorem at_most_one_pending_timer `{Host} (es : list AutoSync.Event)
    (sw : AutoSync.State * World) :
  oneTimer sw ->
  oneTimer (AutoSync.runEvents sw es)
  /\ (length (timers (snd (AutoSync.runEvents sw es))) <= 1)%nat.
Proof.
  intros Hone.
  assert (Hinv : oneTimer (AutoSync.runEvents sw es)).
  { revert sw Hone. induction es as [|e es IH]; intros sw Hone; [exact Hone|].
    cbn [AutoSync.runEvents fold_left]. apply IH. now apply step_oneTimer. }
  split; [exact Hinv|].
  destruct Hinv as [Hnil|(tm & Htm & _)]; [rewrite Hnil | rewrite Htm]; simpl; lia.
Qed.

Lemma at_most_one_pending_timer_witness :
  (length (timers (snd (AutoSync.runEvents (H := plainHost) (idleAuto, sourceWorld)
     [AutoSync.InvokeNarrow; AutoSync.UserEdit tmpPath (js "a");
      AutoSync.UserEdit tmpPath (js "ab"); AutoSync.InvokeNarrow;
      AutoSync.UserEdit tmpPath editedText]))) <= 1)%nat.
Proof.
  refine (proj2 (at_most_one_pending_timer (H := plainHost) _ (idleAuto, sourceWorld) _)).
  left. reflexivity.
Defined.

Lemma sameSession_refl st : sameSession st st.
Proof. repeat split. Qed.

Lemma sameSession_trans a b c : sameSession a b -> sameSession b c -> sameSession a c.
Proof.
  unfold sameSession. intros (?&?&?&?&?) (?&?&?&?&?). repeat split; congruence.
Qed.

Lemma syncCallback_sameSession st w doc :
  sameSession st (fst (exec (AutoSync.syncCallback doc) (st, w))).
Proof.
  destruct (buffers w !! doc) as [edited|] eqn:Hb.
  - destruct (AutoSync.activeOriginalUri st) as [original|] eqn:Hu.
    + destruct (AutoSync.activeRange st) as [range|] eqn:Hr.
      * unfold exec. rewrite (syncCallback_run st w doc edited original range Hb Hu Hr).
        destruct (throws w _); [repeat split|].
        destruct (applyEditResult w _ _ _); repeat split.
        cbn. now rewrite Hr.
      * unfold exec, AutoSync.syncCallback. run_handler. rewrite Hb. cbn. rewrite Hu, Hr.
        repeat split.
    + unfold exec, AutoSync.syncCallback. run_handler. rewrite Hb. cbn. rewrite Hu.
      repeat split.
  - unfold exec, AutoSync.syncCallback. run_handler. rewrite Hb. repeat split.
Qed.

Lemma fire_sameSession due : forall sw, sameSession (fst sw) (fst (AutoSync.fire due sw)).
Proof.
  induction due as [|tm due IH]; intros [st w]; simpl; [apply sameSession_refl|].
  eapply sameSession_trans; [apply (syncCallback_sameSession st w) | apply IH].
Qed.

(** X10: edits of documents and the passing of time never move the
    session: after any sequence of edits and pauses, with any answers of
    the host, the source document, the temporary file path, the base
    indent, the language and the start of the tracked range are those
    before; only the end of the range (and the timer) changes. *)
Theorem edits_and_time_keep_session `{Host} (es : list AutoSync.Event)
    (sw : AutoSync.State * World) :
  forallb editOrTime es = true ->
  sameSession (fst sw) (fst (AutoSync.runEvents sw es)).
Proof.
  revert sw. induction es as [|e es IH]; intros sw Hall; [apply sameSession_refl|].
  cbn [forallb] in Hall. apply andb_true_iff in Hall as [He Hall].
  cbn [AutoSync.runEvents fold_left].
  eapply sameSession_trans; [|apply IH; exact Hall].
  destruct sw as [st w]. destruct e as [doc t|ms| |]; try discriminate He.
  - cbn [AutoSync.step fst snd]. unfold exec. rewrite changeListener_cases.
    destruct (listens st doc); repeat split.
  - cbn [AutoSync.step fst snd].
    match goal with |- sameSession _ (fst (AutoSync.fire ?d ?s)) =>
      apply (fire_sameSession d s)
    end.
Qed.

Lemma edits_and_time_keep_session_witness :
  sameSession narrowedAuto
    (fst (AutoSync.runEvents (H := plainHost) (narrowedAuto, narrowWindowWorld)
       [AutoSync.UserEdit tmpPath editedText; AutoSync.Elapse 300;
        AutoSync.UserEdit tmpPath (js "x"); AutoSync.Elapse 400])).
Proof.
  exact (edits_and_time_keep_session (H := plainHost)
           [AutoSync.UserEdit tmpPath editedText; AutoSync.Elapse 300;
            AutoSync.UserEdit tmpPath (js "x"); AutoSync.Elapse 400]
           (narrowedAuto, narrowWindowWorld) eq_refl).
Defined.

(** ** Guards of the commands *)

(** X11: without an active editor, or with an empty selection, narrow
    writes no variable and touches no file in either variant.  The
    auto-sync variant makes no call at all.  The manual variant makes no
    call either when no session is active; with a session active its guard
    comes first and it shows the already-narrowed warning, nothing else. *)
Theorem narrow_needs_selection `{Host} (w : World) :
  (activeTextEditor w = None
   \/ exists ed, activeTextEditor w = Some ed /\ isEmpty (selection ed) = true) ->
  (forall st : AutoSync.State, AutoSync.narrowCommand (st, w) = (Some tt, (st, w)))
  /\ (forall st : Manual.State,
        Manual.narrowCommand (st, w)
        = (Some tt,
           (st, if truthyString (Manual.tempFilePath st)
                then withLog w (log w ++ [ShowWarningMessage MsgAlreadyNarrowed])
                else w))).
Proof.
  intros Hsel. split.
  - intros st. unfold AutoSync.narrowCommand. mstep getWorld_run.
    destruct Hsel as [-> | (ed & -> & ->)]; reflexivity.
  - intros st. destruct (truthyString (Manual.tempFilePath st)) eqn:Ht.
    + now apply Manual_second_narrow_rejected.
    + unfold Manual.narrowCommand. mstep getState_run. rewrite Ht.
      mstep getWorld_run. destruct Hsel as [-> | (ed & -> & ->)]; reflexivity.
Qed.

Lemma narrow_needs_selection_witness :
  AutoSync.narrowCommand (H := plainHost) (narrowedAuto, quietWorld)
  = (Some tt, (narrowedAuto, quietWorld))
  /\ Manual.narrowCommand (H := plainHost) (idleManual, quietWorld)
     = (Some tt, (idleManual, quietWorld))
  /\ Manual.narrowCommand (H := plainHost) (narrowedManual, quietWorld)
     = (Some tt,
        (narrowedManual,
         withLog quietWorld (log quietWorld ++ [ShowWarningMessage MsgAlreadyNarrowed]))).
Proof.
  split; [|split].
  - exact (proj1 (narrow_needs_selection (H := plainHost) quietWorld (or_introl eq_refl))
             narrowedAuto).
  - exact (proj2 (narrow_needs_selection (H := plainHost) quietWorld (or_introl eq_refl))
             idleManual).
  - exact (proj2 (narrow_needs_selection (H := plainHost) quietWorld (or_introl eq_refl))
             narrowedManual).
Defined.

(** X12: with no session active and a non-empty selection in the active
    editor, the manual variant refuses a file whose extension, in lower
    case, is neither .js nor .html: it shows the unsupported-extension
    warning, makes no other call and leaves the variables and the file
    system as they are. *)
Theorem manual_narrow_refuses_other_extensions `{Host} (st : Manual.State) (w : World)
    (ed : TextEditor) :
  truthyString (Manual.tempFilePath st) = false ->
  activeTextEditor w = Some ed ->
  isEmpty (selection ed) = false ->
  toLowerCase (path_extname (fileName (document ed))) <> js ".js" ->
  toLowerCase (path_extname (fileName (document ed))) <> js ".html" ->
  Manual.narrowCommand (st, w)
  = (Some tt, (st, withLog w (log w ++ [ShowWarningMessage MsgUnsupportedExtension]))).
Proof.
  intros Ht Hed Hsel Hjs Hhtml. unfold Manual.narrowCommand.
  mstep getState_run. rewrite Ht. mstep getWorld_run. rewrite Hed, Hsel. cbv zeta.
  cbn [existsb]. rewrite !bool_decide_eq_false_2 by congruence. reflexivity.
Qed.

Lemma manual_narrow_refuses_other_extensions_witness :
  Manual.narrowCommand (H := plainHost) (idleManual, tsWorld)
  = (Some tt,
     (idleManual,
      withLog tsWorld (log tsWorld ++ [ShowWarningMessage MsgUnsupportedExtension]))).
Proof.
  apply (manual_narrow_refuses_other_extensions (H := plainHost) idleManual tsWorld tsEditor);
    try reflexivity; intros E; vm_compute in E; discriminate E.
Defined.

(** X13: with no session, widen does nothing at all: in the manual variant
    when the temporary path, the source or the range is missing, in the
    auto-sync variant when the temporary path or the source is missing, no
    variable is written and no call is made. *)
Theorem widen_without_session `{Host} (w : World) :
  (forall st : Manual.State,
     Manual.narrowed st = false -> Manual.widenCommand (st, w) = (Some tt, (st, w)))
  /\ (forall st : AutoSync.State,
        truthyString (AutoSync.tempFilePath st) && defined (AutoSync.activeOriginalUri st) = false ->
        AutoSync.widenCommand (st, w) = (Some tt, (st, w))).
Proof.
  split.
  - intros [u r tmp ind] Hn. unfold Manual.narrowed in Hn. cbn in Hn.
    unfold Manual.widenCommand. mstep getState_run. cbn.
    destruct tmp as [[|c tmp]|], u, r; try reflexivity; discriminate Hn.
  - intros [u r tmp ind lang syncing timer] Hn. cbn in Hn.
    unfold AutoSync.widenCommand. mstep getState_run. cbn.
    destruct tmp as [[|c tmp]|], u; try reflexivity; discriminate Hn.
Qed.

Lemma widen_without_session_witness :
  Manual.widenCommand (H := plainHost) (idleManual, sourceWorld)
  = (Some tt, (idleManual, sourceWorld)).
Proof.
  exact (proj1 (widen_without_session (H := plainHost) sourceWorld) idleManual eq_refl).
Defined.

Lemma Manual_second_narrow_rejected_witness :
  Manual.narrowCommand (H := plainHost) (narrowedManual, sourceWorld)
  = (Some tt,
     (narrowedManual,
      withLog sourceWorld (log sourceWorld ++ [ShowWarningMessage MsgAlreadyNarrowed]))).
Proof.
  exact (Manual_second_narrow_rejected (H := plainHost) narrowedManual sourceWorld eq_refl).
Defined.

(** ** Narrow followed by widen or by a sync *)

Lemma writeFileSync_ok {S} p t (s : S) w :
  throws w (WriteFileSync p t) = false ->
  writeFileSync p t (s, w)
  = (Some tt, (s, withFiles (withLog w (log w ++ [WriteFileSync p t])) (<[p := t]> (files w)))).
Proof.
  intros E. unfold writeFileSync. rewrite (bind_ok _ _ _ _ _ (invoke_ok _ _ _ E)).
  rewrite (bind_ok _ _ _ _ _ (getWorld_run _ _)). reflexivity.
Qed.

Section Narrow.
Context `{Host}.

(** The whole effect of a narrow of the manual variant that goes through. *)
Lemma Manual_narrow_run (st : Manual.State) w ed :
  truthyString (Manual.tempFilePath st) = false ->
  activeTextEditor w = Some ed ->
  isEmpty (selection ed) = false ->
  existsb (fun x => bool_decide (x = toLowerCase (path_extname (fileName (document ed)))))
    [js ".js"; js ".html"] = true ->
  (forall c, throws w c = false) ->
  let doc := document ed in
  let range := newRange (selStart (selection ed)) (selEnd (selection ed)) in
  let original := getText doc (Some range) in
  let indent := getCommonIndent original in
  let clean := removeIndent original indent in
  let tmp := path_join (path_dirname (fileName doc)) (js ".narrow." ++ path_basename (fileName doc)) in
  Manual.narrowCommand (st, w)
  = (Some tt,
     (Manual.mkState (Some (uri doc)) (Some range) (Some tmp) indent,
      withFiles
        (withLog w
           (log w ++ [WriteFileSync tmp clean; OpenTextDocument (Uri_file tmp);
                      ShowTextDocument (uri doc); ExecuteCommand cmdCloseActiveEditor;
                      ShowTextDocument (Uri_file tmp); SetStatusBarMessage MsgEditing 5000]))
        (<[tmp := clean]> (files w)))).
Proof.
  intros Ht Hed Hsel Hext Hth doc range original indent clean tmp.
  unfold Manual.narrowCommand.
  mstep getState_run. rewrite Ht. mstep getWorld_run. rewrite Hed, Hsel. cbv zeta.
  rewrite Hext. cbn [negb]. fold doc. fold range. fold original. fold indent. fold clean. fold tmp.
  mstep putState_run. mstep writeFileSync_ok by apply Hth.
  assert (Hc : exists t, contentOf
             (withFiles (withLog w (log w ++ [WriteFileSync tmp clean])) (<[tmp := clean]> (files w)))
             (fsPath (Uri_file tmp)) = Some t).
  { unfold contentOf. cbn [buffers files withFiles withLog fsPath Uri_file].
    destruct (buffers w !! tmp); [eauto|]. rewrite lookup_insert_eq. eauto. }
  destruct Hc as [t Hc].
  mstep openTextDocument_ok by (first [apply Hth | exact Hc]).
  unfold showTextDocument, executeCommand. cbn [uri].
  mstep invoke_ok by apply Hth. mstep invoke_ok by apply Hth. mstep invoke_ok by apply Hth.
  rewrite emit_run. wsimpl. rewrite <- !app_assoc. reflexivity.
Qed.

(** The whole effect of a narrow of the auto-sync variant that goes
    through. *)
Lemma AutoSync_narrow_run (st : AutoSync.State) w ed :
  activeTextEditor w = Some ed ->
  isEmpty (selection ed) = false ->
  (forall c, throws w c = false) ->
  let doc := document ed in
  let range := newRange (selStart (selection ed)) (selEnd (selection ed)) in
  let original := getText doc (Some range) in
  let indent := getCommonIndent original in
  let clean := removeIndent original indent in
  let tmp := path_join (path_dirname (fileName doc)) (js ".narrow." ++ path_basename (fileName doc)) in
  AutoSync.narrowCommand (st, w)
  = (Some tt,
     (AutoSync.mkState (Some (uri doc)) (Some range) (Some tmp) indent (languageId doc)
        (AutoSync.isSyncing st) (AutoSync.syncTimer st),
      withFiles
        (withLog w
           (log w ++ [WriteFileSync tmp clean; OpenTextDocument (Uri_file tmp);
                      SetTextDocumentLanguage (Uri_file tmp) (languageId doc);
                      ShowTextDocument (Uri_file tmp); ShowTextDocument (uri doc);
                      ExecuteCommand cmdCloseActiveEditor;
                      ShowTextDocument (Uri_file tmp);
                      SetStatusBarMessage (MsgNarrowMode (languageId doc)) 3000]))
        (<[tmp := clean]> (files w)))).
Proof.
  intros Hed Hsel Hth doc range original indent clean tmp.
  unfold AutoSync.narrowCommand.
  mstep getWorld_run. rewrite Hed, Hsel. cbv zeta.
  fold doc. fold range. fold original. fold indent. fold clean. fold tmp.
  mstep modify_run. mstep modify_run. mstep modify_run. mstep modify_run.
  mstep writeFileSync_ok by apply Hth.
  assert (Hc : exists t, contentOf
             (withFiles (withLog w (log w ++ [WriteFileSync tmp clean])) (<[tmp := clean]> (files w)))
             (fsPath (Uri_file tmp)) = Some t).
  { unfold contentOf. cbn [buffers files withFiles withLog fsPath Uri_file].
    destruct (buffers w !! tmp); [eauto|]. rewrite lookup_insert_eq. eauto. }
  destruct Hc as [t Hc].
  mstep openTextDocument_ok by (first [apply Hth | exact Hc]).
  unfold showTextDocument, executeCommand, setTextDocumentLanguage. cbn [uri].
  mstep invoke_ok by apply Hth. mstep invoke_ok by apply Hth. mstep invoke_ok by apply Hth.
  mstep invoke_ok by apply Hth. mstep invoke_ok by apply Hth.
  rewrite emit_run. wsimpl. rewrite <- !app_assoc. reflexivity.
Qed.
End Narrow.

Lemma writeBacks_closeNarrowWindow w tmp : writeBacks (closeNarrowWindow w tmp) = [].
Proof. unfold closeNarrowWindow. now destruct (findEditor tmp (visibleTextEditors w)). Qed.

(** X15: in the manual variant, narrow followed at once by widen, on a
    host where no call throws and the temporary path has no open buffer,
    asks for one write-back: the selected range of the source is replaced
    by [addIndent (removeIndent s i) i] for [s] the selected text and [i]
    its common indent.  Afterwards the temporary file is gone and the
    session is cleared. *)
Theorem manual_narrow_then_widen `{Host} (st : Manual.State) (w : World) (ed : TextEditor)
    (src : jsstring) :
  let doc := document ed in
  let range := newRange (selStart (selection ed)) (selEnd (selection ed)) in
  let tmp := path_join (path_dirname (fileName doc)) (js ".narrow." ++ path_basename (fileName doc)) in
  truthyString (Manual.tempFilePath st) = false ->
  activeTextEditor w = Some ed ->
  isEmpty (selection ed) = false ->
  existsb (fun x => bool_decide (x = toLowerCase (path_extname (fileName doc))))
    [js ".js"; js ".html"] = true ->
  (forall c, throws w c = false) ->
  tmp <> [] ->
  buffers w !! tmp = None ->
  contentOf w (fsPath (uri doc)) = Some src ->
  let sw := exec Manual.widenCommand (exec Manual.narrowCommand (st, w)) in
  writeBacks (log (snd sw))
    = writeBacks (log w) ++ [(uri doc, range, roundTrip (getText doc (Some range)))]
  /\ Manual.idle (fst sw)
  /\ files (snd sw) !! tmp = None.
Proof.
  intros doc range tmp Ht Hed Hsel Hext Hth Hne Hbuf Hsrc sw. subst sw.
  unfold exec. rewrite (Manual_narrow_run st w ed Ht Hed Hsel Hext Hth).
  fold doc. fold range. fold tmp. cbn [snd].
  set (original := getText doc (Some range)).
  set (indent := getCommonIndent original).
  set (clean := removeIndent original indent).
  set (st1 := Manual.mkState (Some (uri doc)) (Some range) (Some tmp) indent).
  set (w1 := withFiles _ _).
  assert (Hc1 : contentOf w1 tmp = Some clean).
  { unfold contentOf, w1. cbn [buffers files withFiles withLog]. rewrite Hbuf.
    apply lookup_insert_eq. }
  assert (Hc2 : exists src', contentOf w1 (fsPath (uri doc)) = Some src').
  { unfold contentOf, w1 in *. cbn [buffers files withFiles withLog].
    destruct (buffers w !! fsPath (uri doc)); [eauto|].
    destruct (decide (tmp = fsPath (uri doc))) as [<-|Hd].
    - rewrite lookup_insert_eq. eauto.
    - rewrite lookup_insert_ne by exact Hd. eauto. }
  destruct Hc2 as [src' Hc2].
  assert (Hth1 : forall c, (forall p, c <> UnlinkSync p) -> throws w1 c = false)
    by (intros c _; apply Hth).
  rewrite (Manual_widen_run st1 w1 tmp (uri doc) range clean src'
             eq_refl Hne eq_refl eq_refl Hc1 Hc2 Hth1).
  assert (Hf : files w1 !! tmp = Some clean) by apply lookup_insert_eq.
  rewrite Hf. change (throws w1 (UnlinkSync tmp)) with (throws w (UnlinkSync tmp)).
  rewrite Hth. cbn [fst snd log files withLog withFiles].
  split; [|split; [repeat split | apply lookup_delete_eq]].
  unfold w1. cbn [log withLog withFiles].
  rewrite !writeBacks_app. unfold manualWidenCalls. rewrite !writeBacks_app.
  rewrite writeBacks_closeNarrowWindow. cbn. rewrite app_nil_r. reflexivity.
Qed.

Lemma manual_narrow_then_widen_witness :
  writeBacks (log (snd (exec (Manual.widenCommand (H := plainHost))
                     (exec (Manual.narrowCommand (H := plainHost)) (idleManual, sourceWorld)))))
  = [(Uri_file srcPath, selectedRange, js "    foo();\n    bar();")].
Proof.
  assert (Hne : tmpPath <> []) by discriminate.
  assert (Hb : buffers sourceWorld !! tmpPath = None) by (vm_compute; reflexivity).
  assert (Hc : contentOf sourceWorld srcPath = Some srcText) by (vm_compute; reflexivity).
  assert (Hext : existsb (fun x => bool_decide (x = asciiLower (posixExtname srcPath)))
                   [js ".js"; js ".html"] = true) by (vm_compute; reflexivity).
  exact (proj1 (manual_narrow_then_widen (H := plainHost) idleManual sourceWorld srcEditor
                  srcText eq_refl eq_refl eq_refl Hext (fun c => eq_refl) Hne Hb Hc)).
Defined.

Lemma syncCallback_files st w doc :
  files (snd (exec (AutoSync.syncCallback doc) (st, w))) = files w.
Proof.
  unfold exec, AutoSync.syncCallback. run_handler.
  destruct (buffers w !! doc); [|reflexivity]. cbn.
  destruct (AutoSync.activeOriginalUri st); [|reflexivity].
  destruct (AutoSync.activeRange st); [|reflexivity].
  destruct (throws w _); [reflexivity|]. cbn.
  destruct (applyEditResult w _ _ _); [|reflexivity].
  rewrite AutoSync_newEndPos_spec. reflexivity.
Qed.

Lemma fire_files due : forall sw, files (snd (AutoSync.fire due sw)) = files (snd sw).
Proof.
  induction due as [|tm due IH]; intros [st w]; [reflexivity|].
  cbn [AutoSync.fire]. rewrite IH. apply syncCallback_files.
Qed.

Lemma edit_or_time_keeps_files `{Host} sw e :
  editOrTime e = true -> files (snd (AutoSync.step sw e)) = files (snd sw).
Proof.
  destruct sw as [st w]. destruct e as [doc t|ms| |]; try discriminate; intros _.
  - cbn [AutoSync.step fst snd]. unfold exec. rewrite changeListener_cases.
    destruct (listens st doc); reflexivity.
  - cbn [AutoSync.step fst snd]. now rewrite fire_files.
Qed.

(** X16: in the auto-sync variant, narrow, one edit of the temporary
    file's buffer and a pause of at least 300 ms, on a host where no call
    throws, lead to exactly one write-back: the selected range of the
    source is replaced by the buffer's text re-indented with the common
    indent of the selection.  The temporary file holds the de-indented
    selection and the session keeps the selection's source and indent. *)
Theorem narrow_edit_sync `{Host} (st : AutoSync.State) (w : World) (ed : TextEditor)
    (newText : jsstring) (d : nat) :
  let doc := document ed in
  let range := newRange (selStart (selection ed)) (selEnd (selection ed)) in
  let original := getText doc (Some range) in
  let tmp := path_join (path_dirname (fileName doc)) (js ".narrow." ++ path_basename (fileName doc)) in
  activeTextEditor w = Some ed ->
  isEmpty (selection ed) = false ->
  (forall c, throws w c = false) ->
  tmp <> [] ->
  timers w = [] ->
  (300 <= d)%nat ->
  let sw := AutoSync.runEvents (st, w)
              [AutoSync.InvokeNarrow; AutoSync.UserEdit tmp newText; AutoSync.Elapse d] in
  writeBacks (log (snd sw))
    = writeBacks (log w) ++ [(uri doc, range, addIndent newText (getCommonIndent original))]
  /\ files (snd sw) !! tmp = Some (removeIndent original (getCommonIndent original))
  /\ AutoSync.tempFilePath (fst sw) = Some tmp
  /\ AutoSync.activeOriginalUri (fst sw) = Some (uri doc)
  /\ AutoSync.baseIndent (fst sw) = getCommonIndent original
  /\ timers (snd sw) = [].
Proof.
  intros doc range original tmp Hed Hsel Hth Hne Htm Hd sw. subst sw.
  cbn [AutoSync.runEvents fold_left].
  change (AutoSync.step (st, w) AutoSync.InvokeNarrow)
    with (snd (AutoSync.narrowCommand (st, w))).
  rewrite (AutoSync_narrow_run st w ed Hed Hsel Hth).
  fold doc. fold range. fold original. fold tmp. cbn [snd].
  set (indent := getCommonIndent original).
  set (st1 := AutoSync.mkState _ _ _ _ _ _ _).
  set (w1 := withFiles _ _).
  destruct (edit_starts_timer st1 w1 tmp (uri doc) range newText eq_refl Hne eq_refl eq_refl
              (or_introl Htm)) as [Hp Hwb1].
  set (sw2 := AutoSync.step (st1, w1) (AutoSync.UserEdit tmp newText)) in *.
  destruct (long_pause_fires sw2 tmp (uri doc) range _ newText d Hp Hd) as [Hwb2 Htm2].
  assert (Hses : sameSession (fst sw2) (fst (AutoSync.step sw2 (AutoSync.Elapse d)))).
  { apply (edits_and_time_keep_session [AutoSync.Elapse d] sw2 eq_refl). }
  destruct Hses as (Hs1 & Hs2 & Hs3 & _).
  destruct Hp as (Hp1 & Hp2 & _ & Hp4 & _).
  assert (Hfiles : files (snd (AutoSync.step sw2 (AutoSync.Elapse d))) = files w1).
  { rewrite (edit_or_time_keeps_files sw2 (AutoSync.Elapse d) eq_refl).
    unfold sw2.
    now rewrite (edit_or_time_keeps_files (st1, w1) (AutoSync.UserEdit tmp newText) eq_refl). }
  split; [rewrite Hwb2, Hwb1; unfold w1; cbn [log withLog withFiles];
          rewrite writeBacks_app; cbn; now rewrite app_nil_r|].
  split; [rewrite Hfiles; apply lookup_insert_eq|].
  split; [congruence|]. split; [congruence|].
  split; [rewrite Hs3, Hp4; reflexivity | exact Htm2].
Qed.

Lemma narrow_edit_sync_witness :
  writeBacks (log (snd (AutoSync.runEvents (H := plainHost) (idleAuto, sourceWorld)
     [AutoSync.InvokeNarrow; AutoSync.UserEdit tmpPath editedText; AutoSync.Elapse 300])))
  = [(Uri_file srcPath, selectedRange, js "    foo();\n    baz();\n    qux();")].
Proof.
  assert (Hne : tmpPath <> []) by discriminate.
  exact (proj1 (narrow_edit_sync (H := plainHost) idleAuto sourceWorld srcEditor editedText
                  300%nat eq_refl eq_refl (fun c => eq_refl) Hne eq_refl (le_n 300))).
Defined.

(** Without a source document or a range the callback stops before any
    call: nothing but [isSyncing] changes. *)
(** X14: in the manual variant a narrow that went through locks the
    command: a second narrow changes neither the variables nor the file
    system and makes no call but the warning, so the first session's
    range, indent and temporary file stay until widen. *)
Theorem manual_narrow_twice `{Host} (st : Manual.State) (w : World) (ed : TextEditor) :
  truthyString (Manual.tempFilePath st) = false ->
  activeTextEditor w = Some ed ->
  isEmpty (selection ed) = false ->
  existsb (fun x => bool_decide (x = toLowerCase (path_extname (fileName (document ed)))))
    [js ".js"; js ".html"] = true ->
  (forall c, throws w c = false) ->
  path_join (path_dirname (fileName (document ed)))
    (js ".narrow." ++ path_basename (fileName (document ed))) <> [] ->
  let sw1 := exec Manual.narrowCommand (st, w) in
  let sw2 := exec Manual.narrowCommand sw1 in
  fst sw2 = fst sw1
  /\ files (snd sw2) = files (snd sw1)
  /\ log (snd sw2) = log (snd sw1) ++ [ShowWarningMessage MsgAlreadyNarrowed].
Proof.
  intros Ht Hed Hsel Hext Hth Hne sw1 sw2. subst sw2 sw1. unfold exec.
  rewrite (Manual_narrow_run st w ed Ht Hed Hsel Hext Hth). cbn [snd].
  rewrite Manual_second_narrow_rejected; [repeat split|].
  cbn [Manual.tempFilePath truthyString].
  destruct (path_join _ _); [congruence | reflexivity].
Qed.

Lemma manual_narrow_twice_witness :
  fst (exec (Manual.narrowCommand (H := plainHost))
         (exec (Manual.narrowCommand (H := plainHost)) (idleManual, sourceWorld)))
  = fst (exec (Manual.narrowCommand (H := plainHost)) (idleManual, sourceWorld)).
Proof.
  assert (Hext : existsb (fun x => bool_decide (x = asciiLower (posixExtname srcPath)))
                   [js ".js"; js ".html"] = true) by (vm_compute; reflexivity).
  assert (Hne : posixJoin (posixDirname srcPath) (js ".narrow." ++ posixBasename srcPath) <> [])
    by (vm_compute; discriminate).
  exact (proj1 (manual_narrow_twice (H := plainHost) idleManual sourceWorld srcEditor
                  eq_refl eq_refl eq_refl Hext (fun c => eq_refl) Hne)).
Defined.

(** X17: a widen of the manual variant that goes through asks for the
    write-back first and then puts the selection of the source editor on
    the text written back: from the start of the range to the end
    position of that text. *)
Theorem manual_widen_selects_written_text `{Host} (st : Manual.State) (w : World)
    (tmp : jsstring) (original : Uri) (range : Range) (edited src : jsstring) :
  Manual.tempFilePath st = Some tmp -> tmp <> [] ->
  Manual.activeOriginalUri st = Some original ->
  Manual.activeRange st = Some range ->
  contentOf w tmp = Some edited ->
  contentOf w (fsPath original) = Some src ->
  (forall c, throws w c = false) ->
  let t := addIndent edited (Manual.baseIndent st) in
  exists e before between after,
    Manual.newEndPos (start range) t = Some e
    /\ log (snd (exec Manual.widenCommand (st, w)))
       = log w ++ before ++ [ApplyEdit original range t] ++ between
           ++ [SetSelection original (mkSelection (start range) e);
               RevealRange original (mkRange (start range) e)] ++ after
    /\ writeBacks (before ++ between ++ after) = [].
Proof.
  intros Ht Hne Hu Hr Hc1 Hc2 Hth t.
  assert (Hth' : forall c, (forall p, c <> UnlinkSync p) -> throws w c = false)
    by (intros c _; apply Hth).
  exists (remapRangeEnd_spec (start range) t), [OpenTextDocument (Uri_file tmp)],
    (closeNarrowWindow w tmp ++ [OpenTextDocument original; ShowTextDocument original]).
  unfold exec.
  rewrite (Manual_widen_run st w tmp original range edited src Ht Hne Hu Hr Hc1 Hc2 Hth').
  fold t. rewrite Hth.
  destruct (files w !! tmp) as [content|].
  - exists [ExistsSync tmp; UnlinkSync tmp; ShowInformationMessage MsgSynced].
    split; [apply Manual_newEndPos_spec|]. cbn [snd log withLog withFiles]. split.
    + unfold manualWidenCalls. rewrite <- !app_assoc. reflexivity.
    + rewrite !writeBacks_app, writeBacks_closeNarrowWindow. reflexivity.
  - exists [ExistsSync tmp; ShowInformationMessage MsgSynced].
    split; [apply Manual_newEndPos_spec|]. cbn [snd log withLog withFiles]. split.
    + unfold manualWidenCalls. rewrite <- !app_assoc. reflexivity.
    + rewrite !writeBacks_app, writeBacks_closeNarrowWindow. reflexivity.
Qed.

Lemma manual_widen_selects_written_text_witness :
  exists e before between after,
    Manual.newEndPos (start selectedRange)
      (addIndent editedText (Manual.baseIndent narrowedManual)) = Some e
    /\ log (snd (exec (Manual.widenCommand (H := plainHost)) (narrowedManual, narrowWindowWorld)))
       = log narrowWindowWorld ++ before
           ++ [ApplyEdit (Uri_file srcPath) selectedRange
                 (addIndent editedText (Manual.baseIndent narrowedManual))] ++ between
           ++ [SetSelection (Uri_file srcPath) (mkSelection (start selectedRange) e);
               RevealRange (Uri_file srcPath) (mkRange (start selectedRange) e)] ++ after
    /\ writeBacks (before ++ between ++ after) = [].
Proof.
  assert (Hne : tmpPath <> []) by discriminate.
  assert (Hc1 : contentOf narrowWindowWorld tmpPath = Some editedText)
    by (vm_compute; reflexivity).
  assert (Hc2 : contentOf narrowWindowWorld (fsPath (Uri_file srcPath)) = Some srcText)
    by (vm_compute; reflexivity).
  exact (manual_widen_selects_written_text (H := plainHost) narrowedManual narrowWindowWorld
           tmpPath (Uri_file srcPath) selectedRange editedText srcText
           eq_refl Hne eq_refl eq_refl Hc1 Hc2 (fun c => eq_refl)).
Defined.
